(** * crcrypt: password-based AES encryption (src/utils/crypto.js)

    A shallow embedding of the four functions of [crypto.js]
    ([deriveKey], [encrypt], [decrypt], [validateAlgorithmParameters]),
    of the validators and error handlers of the command line ([index.js])
    that call them, and of the part of the JavaScript platform they rest
    on.

    - JavaScript strings are sequences of UTF-16 code units, Buffers are
      sequences of bytes.  [split], [includes], the hex and the UTF-8
      codecs are written out and run.
    - Numbers that the code receives (lengths, iteration count) are
      integers, [Z].
    - Node's [crypto] module is an interface, [CryptoLib], with the contract
      the code relies on, [CryptoLaws].  [RefLib] is an executable
      implementation of it, whose key derivation is PBKDF2 with
      HMAC-SHA-256 as published and whose cipher is a stand-in.
    - Exceptions and the system's randomness are explicit: a computation
      maps a [World] to a [result] and the [World] it leaves behind, which
      records the random bytes drawn and the calls made to [crypto]. *)

From Stdlib Require Import ZArith List Bool Lia String Ascii.
From Stdlib Require Import Strings.Byte.
Import ListNotations.
Local Open Scope Z_scope.

(** ** Bytes and Buffers *)

Definition bytes := list byte.

Definition Z_of_byte (b : byte) : Z := Z.of_N (Byte.to_N b).

Definition byte_of_Z (z : Z) : byte :=
  match Byte.of_N (Z.to_N z) with
  | Some b => b
  | None => x00
  end.

(** [buf.length] *)
Definition Buffer_length (b : bytes) : Z := Z.of_nat (List.length b).

(** ** JavaScript strings *)

Definition codeunit := Z.
Definition jsstring := list codeunit.

(** A string literal of the source (ASCII). *)
Definition js (s : string) : jsstring :=
  map (fun a => Z.of_N (N_of_ascii a)) (list_ascii_of_string s).

Fixpoint streq (a b : jsstring) : bool :=
  match a, b with
  | [], [] => true
  | x :: a', y :: b' => (x =? y) && streq a' b'
  | _, _ => false
  end.

Definition colon : codeunit := 58.

(** [s.split(':')]: the fields between the separators, at least one. *)
Fixpoint split (sep : codeunit) (s : jsstring) : list jsstring :=
  match s with
  | [] => [[]]
  | c :: rest =>
      if c =? sep then [] :: split sep rest
      else match split sep rest with
           | f :: fs => (c :: f) :: fs
           | [] => [[c]]
           end
  end.

Fixpoint startsWith (s needle : jsstring) : bool :=
  match needle, s with
  | [], _ => true
  | x :: needle', y :: s' => (x =? y) && startsWith s' needle'
  | _ :: _, [] => false
  end.

(** [s.includes(needle)] *)
Fixpoint includes (s needle : jsstring) : bool :=
  startsWith s needle ||
  match s with
  | [] => false
  | _ :: s' => includes s' needle
  end.

(** ** Hexadecimal encoding of Buffers *)

Definition hex_digit (n : Z) : codeunit :=
  if n <? 10 then 48 + n else 87 + n.

Definition hex_of_byte (b : byte) : jsstring :=
  [hex_digit (Z_of_byte b / 16); hex_digit (Z_of_byte b mod 16)].

(** [buf.toString('hex')] *)
Definition toString_hex (b : bytes) : jsstring := flat_map hex_of_byte b.

Definition unhex (c : codeunit) : option Z :=
  if (48 <=? c) && (c <=? 57) then Some (c - 48)
  else if (97 <=? c) && (c <=? 102) then Some (c - 87)
  else if (65 <=? c) && (c <=? 70) then Some (c - 55)
  else None.

(** [Buffer.from(s, 'hex')]: decoding stops at the first pair that is not
    two hexadecimal digits, and a trailing single digit is dropped. *)
Fixpoint Buffer_from_hex (s : jsstring) : bytes :=
  match s with
  | a :: b :: rest =>
      match unhex a, unhex b with
      | Some x, Some y => byte_of_Z (16 * x + y) :: Buffer_from_hex rest
      | _, _ => []
      end
  | _ => []
  end.

Definition is_lower_hex (c : codeunit) : bool :=
  ((48 <=? c) && (c <=? 57)) || ((97 <=? c) && (c <=? 102)).

(** ** UTF-8 encoding of strings

    [cipher.update(text, 'utf8', ...)] encodes the string as UTF-8: a
    surrogate pair is one code point of four bytes, and a surrogate that
    is not part of a pair is replaced by U+FFFD. *)

Definition is_high_surrogate (u : codeunit) : bool := (0xD800 <=? u) && (u <=? 0xDBFF).
Definition is_low_surrogate (u : codeunit) : bool := (0xDC00 <=? u) && (u <=? 0xDFFF).

Definition replacement : Z := 0xFFFD.

Definition utf8_of_codepoint (cp : Z) : bytes :=
  if cp <? 0x80 then [byte_of_Z cp]
  else if cp <? 0x800 then
    [byte_of_Z (0xC0 + cp / 64); byte_of_Z (0x80 + cp mod 64)]
  else if cp <? 0x10000 then
    [byte_of_Z (0xE0 + cp / 4096); byte_of_Z (0x80 + (cp / 64) mod 64);
     byte_of_Z (0x80 + cp mod 64)]
  else
    [byte_of_Z (0xF0 + cp / 262144); byte_of_Z (0x80 + (cp / 4096) mod 64);
     byte_of_Z (0x80 + (cp / 64) mod 64); byte_of_Z (0x80 + cp mod 64)].

Fixpoint utf8_encode (s : jsstring) : bytes :=
  match s with
  | [] => []
  | u :: rest =>
      if is_high_surrogate u then
        match rest with
        | l :: rest' =>
            if is_low_surrogate l then
              utf8_of_codepoint (0x10000 + (u - 0xD800) * 1024 + (l - 0xDC00))
                ++ utf8_encode rest'
            else utf8_of_codepoint replacement ++ utf8_encode rest
        | [] => utf8_of_codepoint replacement
        end
      else if is_low_surrogate u then utf8_of_codepoint replacement ++ utf8_encode rest
      else utf8_of_codepoint u ++ utf8_encode rest
  end.

(** Decoding, one byte at a time as a stream decoder does, so that the
    strings [decipher.update(..., 'utf8')] and [decipher.final('utf8')]
    return, concatenated, are the decoding of all the bytes.  A byte that
    cannot continue or start a sequence yields U+FFFD. *)

Definition units_of_codepoint (cp : Z) : jsstring :=
  if cp <? 0x10000 then [cp]
  else [0xD800 + (cp - 0x10000) / 1024; 0xDC00 + (cp - 0x10000) mod 1024].

Record decoder := {
  code_point : Z;
  bytes_needed : Z;
  lower_boundary : Z;
  upper_boundary : Z
}.

Definition utf8_start (b : Z) : jsstring * option decoder :=
  if b <=? 0x7F then ([b], None)
  else if (0xC2 <=? b) && (b <=? 0xDF) then
    ([], Some {| code_point := b mod 32; bytes_needed := 1;
                 lower_boundary := 0x80; upper_boundary := 0xBF |})
  else if (0xE0 <=? b) && (b <=? 0xEF) then
    ([], Some {| code_point := b mod 16; bytes_needed := 2;
                 lower_boundary := if b =? 0xE0 then 0xA0 else 0x80;
                 upper_boundary := if b =? 0xED then 0x9F else 0xBF |})
  else if (0xF0 <=? b) && (b <=? 0xF4) then
    ([], Some {| code_point := b mod 8; bytes_needed := 3;
                 lower_boundary := if b =? 0xF0 then 0x90 else 0x80;
                 upper_boundary := if b =? 0xF4 then 0x8F else 0xBF |})
  else ([replacement], None).

Fixpoint utf8_decode_from (st : option decoder) (bs : bytes) {struct bs} : jsstring :=
  match bs with
  | [] => match st with None => [] | Some _ => [replacement] end
  | b :: rest =>
      let v := Z_of_byte b in
      match st with
      | None =>
          let '(out, st') := utf8_start v in out ++ utf8_decode_from st' rest
      | Some d =>
          if (lower_boundary d <=? v) && (v <=? upper_boundary d) then
            let cp := code_point d * 64 + v mod 64 in
            if bytes_needed d =? 1 then
              units_of_codepoint cp ++ utf8_decode_from None rest
            else
              utf8_decode_from
                (Some {| code_point := cp; bytes_needed := bytes_needed d - 1;
                         lower_boundary := 0x80; upper_boundary := 0xBF |}) rest
          else
            replacement ::
              (let '(out, st') := utf8_start v in out ++ utf8_decode_from st' rest)
      end
  end.

Definition utf8_decode (bs : bytes) : jsstring := utf8_decode_from None bs.

(** [s.isWellFormed()]: every code unit is a 16-bit value and every
    surrogate is half of a pair. *)
Fixpoint isWellFormed (s : jsstring) : bool :=
  match s with
  | [] => true
  | u :: rest =>
      if is_high_surrogate u then
        match rest with
        | l :: rest' => is_low_surrogate l && isWellFormed rest'
        | [] => false
        end
      else if is_low_surrogate u then false
      else (0 <=? u) && (u <? 0x10000) && isWellFormed rest
  end.

(** [s.toWellFormed()]: lone surrogates replaced by U+FFFD. *)
Fixpoint toWellFormed (s : jsstring) : jsstring :=
  match s with
  | [] => []
  | u :: rest =>
      if is_high_surrogate u then
        match rest with
        | l :: rest' =>
            if is_low_surrogate l then u :: l :: toWellFormed rest'
            else replacement :: toWellFormed rest
        | [] => [replacement]
        end
      else if is_low_surrogate u then replacement :: toWellFormed rest
      else u :: toWellFormed rest
  end.

(** The strings of JavaScript: 16-bit code units. *)
Definition code_units (s : jsstring) : Prop := Forall (fun u => 0 <= u < 0x10000) s.

(** ** The table of algorithms *)

Module Spec.
Record t := { keyLength : Z; ivLength : Z }.
End Spec.

(** The object literal [algorithmSpecs] of [validateAlgorithmParameters]. *)
Definition algorithmSpecs : list (jsstring * Spec.t) :=
  [ (js "aes-256-cbc", {| Spec.keyLength := 32; Spec.ivLength := 16 |});
    (js "aes-256-gcm", {| Spec.keyLength := 32; Spec.ivLength := 12 |});
    (js "aes-128-gcm", {| Spec.keyLength := 16; Spec.ivLength := 12 |});
    (js "aes-128-cbc", {| Spec.keyLength := 16; Spec.ivLength := 16 |});
    (js "aes-192-cbc", {| Spec.keyLength := 24; Spec.ivLength := 16 |});
    (js "aes-192-gcm", {| Spec.keyLength := 24; Spec.ivLength := 12 |}) ].

(** An object literal inherits from [Object.prototype]; these are the
    names found there.  Each is bound to a function, or for [__proto__] to
    the prototype object itself. *)
Definition Object_prototype : list jsstring :=
  map js [ "constructor"; "__defineGetter__"; "__defineSetter__";
           "hasOwnProperty"; "__lookupGetter__"; "__lookupSetter__";
           "isPrototypeOf"; "propertyIsEnumerable"; "toString"; "valueOf";
           "__proto__"; "toLocaleString" ]%string.

(** The value of [algorithmSpecs[algorithm]]. *)
Inductive property :=
| Own (spec : Spec.t)   (* one of the six entries *)
| Inherited             (* a member of [Object.prototype]: truthy, and both
                           its [keyLength] and [ivLength] are [undefined] *)
| Undefined.

Fixpoint own_property (o : list (jsstring * Spec.t)) (name : jsstring) : option Spec.t :=
  match o with
  | [] => None
  | (k, v) :: o' => if streq k name then Some v else own_property o' name
  end.

Definition get_property (o : list (jsstring * Spec.t)) (name : jsstring) : property :=
  match own_property o name with
  | Some spec => Own spec
  | None => if existsb (streq name) Object_prototype then Inherited else Undefined
  end.

(** The six identifiers and what they stand for. *)
Definition supported (algorithm : jsstring) : option Spec.t :=
  own_property algorithmSpecs algorithm.

Definition CBC (algorithm : jsstring) : Prop :=
  algorithm = js "aes-128-cbc" \/ algorithm = js "aes-192-cbc" \/
  algorithm = js "aes-256-cbc".

Definition GCM (algorithm : jsstring) : Prop :=
  algorithm = js "aes-128-gcm" \/ algorithm = js "aes-192-gcm" \/
  algorithm = js "aes-256-gcm".

Definition aes_256_gcm : Spec.t := {| Spec.keyLength := 32; Spec.ivLength := 12 |}.
Definition aes_256_cbc : Spec.t := {| Spec.keyLength := 32; Spec.ivLength := 16 |}.

(** ** Errors

    The errors that the crypto module throws, *)

Inductive crypto_error :=
| AuthenticationFailed  (* [decipher.final]: the tag does not match (GCM) *)
| PaddingOrKeyError     (* [decipher.final]: bad padding (CBC) *)
| OutOfRange            (* an argument is out of range, as a size of [randomBytes] *)
| CryptoError (code : string).  (* any other *)

(** and what [crypto.js] throws: the [Error] objects it makes itself, told
    apart by their message (beside each constructor), and the errors of
    the crypto module, which it lets through. *)

Inductive error :=
| EmptyInput        (* 'Text to encrypt cannot be empty' *)
| MalformedToken    (* 'Invalid encrypted text format' *)
| MissingAuthTag    (* 'Authentication tag is required for GCM decryption' *)
| InvalidAlgorithm  (* 'Invalid encryption algorithm' *)
| KeyLengthMismatch (algorithm : jsstring) (required : option Z)
                    (* `${algorithm} requires a ${spec.keyLength}-byte key length.`,
                       [None] printing as undefined *)
| IVLengthMismatch (algorithm : jsstring) (required : option Z)
                    (* `${algorithm} requires a ${spec.ivLength}-byte IV length.` *)
| Crypto (e : crypto_error).

(** The decimal digits of a number, as a template literal prints it. *)
Fixpoint digits (fuel : nat) (n : Z) (acc : jsstring) : jsstring :=
  match fuel with
  | O => acc
  | S fuel' =>
      let acc' := (48 + n mod 10) :: acc in
      if n / 10 =? 0 then acc' else digits fuel' (n / 10) acc'
  end.

Definition String_of_number (n : Z) : jsstring :=
  if n <? 0 then 45 :: digits (Z.to_nat (- n)) (- n) []
  else digits (S (Z.to_nat n)) n [].

(** [`${x}`] for a property that may be missing. *)
Definition String_of_property (x : option Z) : jsstring :=
  match x with
  | Some n => String_of_number n
  | None => js "undefined"
  end.

(** [error.message].  For the two failures of [decipher.final] it is the
    text that Node and OpenSSL give; the other errors of the crypto module
    are stood for by their code. *)
Definition message (e : error) : jsstring :=
  match e with
  | EmptyInput => js "Text to encrypt cannot be empty"
  | MalformedToken => js "Invalid encrypted text format"
  | MissingAuthTag => js "Authentication tag is required for GCM decryption"
  | InvalidAlgorithm => js "Invalid encryption algorithm"
  | KeyLengthMismatch algorithm required =>
      algorithm ++ js " requires a " ++ String_of_property required
        ++ js "-byte key length."
  | IVLengthMismatch algorithm required =>
      algorithm ++ js " requires a " ++ String_of_property required
        ++ js "-byte IV length."
  | Crypto AuthenticationFailed => js "Unsupported state or unable to authenticate data"
  | Crypto PaddingOrKeyError => js "error:1C800064:Provider routines::bad decrypt"
  | Crypto OutOfRange => js "ERR_OUT_OF_RANGE"
  | Crypto (CryptoError code) => js code
  end.

Inductive result (E A : Type) :=
| Ok (a : A)
| Throw (e : E).
Arguments Ok {E A} a.
Arguments Throw {E A} e.

(** ** Parameter validation *)

Definition validateAlgorithmParameters (algorithm : jsstring) (keyLength ivLength : Z)
  : result error unit :=
  match get_property algorithmSpecs algorithm with
  | Undefined => Throw InvalidAlgorithm
  | Inherited =>
      (* [keyLength !== undefined] holds of every number *)
      Throw (KeyLengthMismatch algorithm None)
  | Own spec =>
      if negb (keyLength =? Spec.keyLength spec) then
        Throw (KeyLengthMismatch algorithm (Some (Spec.keyLength spec)))
      else if negb (ivLength =? Spec.ivLength spec) then
        Throw (IVLengthMismatch algorithm (Some (Spec.ivLength spec)))
      else Ok tt
  end.

(** ** The world: randomness drawn and calls made *)

Inductive call :=
| RandomBytes (size : Z)
| Pbkdf2Sync
| CreateCipheriv
| CipherUpdate
| CipherFinal
| GetAuthTag
| CreateDecipheriv
| SetAuthTag
| DecipherUpdate
| DecipherFinal.

Record World := {
  entropy : nat -> byte;   (* the bytes the system's generator will give *)
  drawn : nat;             (* how many of them were consumed *)
  calls : list call        (* the calls to [crypto], oldest first *)
}.

Definition M (A : Type) : Type := World -> result error A * World.

Definition ret {A} (a : A) : M A := fun w => (Ok a, w).

Definition throw {A} (e : error) : M A := fun w => (Throw e, w).

Definition bind {A B} (m : M A) (k : A -> M B) : M B :=
  fun w =>
    match m w with
    | (Ok a, w') => k a w'
    | (Throw e, w') => (Throw e, w')
    end.

Notation "x <- m ;; k" := (bind m (fun x => k))
  (at level 61, m at next level, right associativity).
Notation "' p <- m ;; k" := (bind m (fun x => let 'p := x in k))
  (at level 61, p pattern, m at next level, right associativity).

(** A pure step that may throw. *)
Definition check {A} (r : result error A) : M A := fun w => (r, w).

(** The world after a call to [crypto], and after [n] random bytes were
    handed out. *)
Definition record (c : call) (w : World) : World :=
  {| entropy := entropy w; drawn := drawn w; calls := calls w ++ [c] |}.

Definition draw (n : nat) (w : World) : World :=
  {| entropy := entropy w; drawn := (drawn w + n)%nat; calls := calls w |}.

(** An error of the crypto module, let through. *)
Definition uncaught {A} (r : result crypto_error A) : result error A :=
  match r with
  | Ok a => Ok a
  | Throw e => Throw (Crypto e)
  end.

(** A call to [crypto] that draws no randomness. *)
Definition invoke {A} (c : call) (r : result crypto_error A) : M A :=
  fun w => (uncaught r, record c w).

Definition INT32_MAX : Z := 2 ^ 31 - 1.

(** [crypto.randomBytes(size)]: the next [size] bytes of the generator;
    a size below 0 or above 2**31 - 1 is refused. *)
Definition randomBytes (size : Z) : M bytes :=
  fun w =>
    if (0 <=? size) && (size <=? INT32_MAX) then
      (Ok (map (entropy w) (seq (drawn w) (Z.to_nat size))),
       draw (Z.to_nat size) (record (RandomBytes size) w))
    else (Throw (Crypto OutOfRange), record (RandomBytes size) w).

(** ** Node's crypto module *)

Class CryptoLib := {
  Cipher : Type;
  Decipher : Type;
  (* [crypto.pbkdf2Sync(password, salt, iterations, keylen, digest)] *)
  pbkdf2Sync : jsstring -> bytes -> Z -> Z -> jsstring -> result crypto_error bytes;
  (* [crypto.createCipheriv(algorithm, key, iv)] *)
  createCipheriv : jsstring -> bytes -> bytes -> result crypto_error Cipher;
  (* [cipher.update(data)], [cipher.final()]: the bytes put out and the
     cipher object after the call *)
  cipher_update : Cipher -> bytes -> result crypto_error (bytes * Cipher);
  cipher_final : Cipher -> result crypto_error (bytes * Cipher);
  (* [cipher.getAuthTag()] *)
  getAuthTag : Cipher -> result crypto_error bytes;
  (* [crypto.createDecipheriv(algorithm, key, iv)] *)
  createDecipheriv : jsstring -> bytes -> bytes -> result crypto_error Decipher;
  (* [decipher.setAuthTag(tag)] *)
  setAuthTag : Decipher -> bytes -> result crypto_error Decipher;
  decipher_update : Decipher -> bytes -> result crypto_error (bytes * Decipher);
  decipher_final : Decipher -> result crypto_error (bytes * Decipher)
}.

Definition gcm : jsstring := js "gcm".
Definition sha256 : jsstring := js "sha256".

(** The contract of the module, for the six algorithms of the table. *)
Class CryptoLaws (L : CryptoLib) : Prop := {
  pbkdf2Sync_returns :
    forall password salt iterations keylen,
      1 <= iterations <= INT32_MAX ->
      0 <= keylen <= INT32_MAX ->
      exists key,
        pbkdf2Sync password salt iterations keylen sha256 = Ok key /\
        Buffer_length key = keylen;
  createCipheriv_returns :
    forall algorithm spec key iv,
      supported algorithm = Some spec ->
      Buffer_length key = Spec.keyLength spec ->
      Buffer_length iv = Spec.ivLength spec ->
      exists cipher, createCipheriv algorithm key iv = Ok cipher;
  createDecipheriv_returns :
    forall algorithm spec key iv,
      supported algorithm = Some spec ->
      Buffer_length key = Spec.keyLength spec ->
      Buffer_length iv = Spec.ivLength spec ->
      exists decipher, createDecipheriv algorithm key iv = Ok decipher;
  cipher_returns :
    forall algorithm spec key iv cipher data,
      supported algorithm = Some spec ->
      createCipheriv algorithm key iv = Ok cipher ->
      exists out1 c1 out2 c2,
        cipher_update cipher data = Ok (out1, c1) /\
        cipher_final c1 = Ok (out2, c2) /\
        (includes algorithm gcm = true -> exists tag, getAuthTag c2 = Ok tag);
  decipher_inverts_cbc :
    forall algorithm spec key iv cipher data out1 c1 out2 c2,
      supported algorithm = Some spec ->
      includes algorithm gcm = false ->
      createCipheriv algorithm key iv = Ok cipher ->
      cipher_update cipher data = Ok (out1, c1) ->
      cipher_final c1 = Ok (out2, c2) ->
      exists decipher p1 d1 p2 d2,
        createDecipheriv algorithm key iv = Ok decipher /\
        decipher_update decipher (out1 ++ out2) = Ok (p1, d1) /\
        decipher_final d1 = Ok (p2, d2) /\
        p1 ++ p2 = data;
  decipher_inverts_gcm :
    forall algorithm spec key iv cipher data out1 c1 out2 c2 tag,
      supported algorithm = Some spec ->
      includes algorithm gcm = true ->
      createCipheriv algorithm key iv = Ok cipher ->
      cipher_update cipher data = Ok (out1, c1) ->
      cipher_final c1 = Ok (out2, c2) ->
      getAuthTag c2 = Ok tag ->
      exists decipher d0 p1 d1 p2 d2,
        createDecipheriv algorithm key iv = Ok decipher /\
        setAuthTag decipher tag = Ok d0 /\
        decipher_update d0 (out1 ++ out2) = Ok (p1, d1) /\
        decipher_final d1 = Ok (p2, d2) /\
        p1 ++ p2 = data
}.

(** ** crypto.js *)

Section CryptoJs.

Context {L : CryptoLib}.

Definition deriveKey (password : jsstring) (salt : bytes) (iterations keyLength : Z)
  : M bytes :=
  invoke Pbkdf2Sync (pbkdf2Sync password salt iterations keyLength sha256).

(** [`${a}:${b}`] *)
Definition join2 (a b : jsstring) : jsstring := a ++ colon :: b.

(** The numeric arguments are numbers, on which [Number(...)] is the
    identity. *)
Definition encrypt (password text : jsstring) (saltLength ivLength : Z)
    (algorithm : jsstring) (iterations keyLength : Z) : M jsstring :=
  match text with
  | [] => throw EmptyInput
  | _ =>
      salt <- randomBytes saltLength ;;
      iv <- randomBytes ivLength ;;
      _ <- check (validateAlgorithmParameters algorithm keyLength ivLength) ;;
      key <- deriveKey password salt iterations keyLength ;;
      cipher <- invoke CreateCipheriv (createCipheriv algorithm key iv) ;;
      if includes algorithm gcm then
        '(out1, cipher) <- invoke CipherUpdate (cipher_update cipher (utf8_encode text)) ;;
        '(out2, cipher) <- invoke CipherFinal (cipher_final cipher) ;;
        let encrypted := toString_hex out1 ++ toString_hex out2 in
        authTag <- invoke GetAuthTag (getAuthTag cipher) ;;
        ret (join2 (toString_hex salt)
               (join2 (toString_hex iv) (join2 encrypted (toString_hex authTag))))
      else
        '(out1, cipher) <- invoke CipherUpdate (cipher_update cipher (utf8_encode text)) ;;
        '(out2, cipher) <- invoke CipherFinal (cipher_final cipher) ;;
        let encrypted := toString_hex out1 ++ toString_hex out2 in
        ret (join2 (toString_hex salt) (join2 (toString_hex iv) encrypted))
  end.

Definition decrypt (password encryptedText algorithm : jsstring)
    (iterations keyLength : Z) : M jsstring :=
  let parts := split colon encryptedText in
  if (List.length parts <? 3)%nat then throw MalformedToken
  else
    let salt := Buffer_from_hex (nth 0 parts []) in
    let iv := Buffer_from_hex (nth 1 parts []) in
    let encrypted := nth 2 parts [] in
    let tag := if (3 <? List.length parts)%nat
               then Some (Buffer_from_hex (nth 3 parts []))
               else None in
    _ <- check (validateAlgorithmParameters algorithm keyLength (Buffer_length iv)) ;;
    key <- deriveKey password salt iterations keyLength ;;
    if includes algorithm gcm then
      decipher <- invoke CreateDecipheriv (createDecipheriv algorithm key iv) ;;
      match tag with
      | None => throw MissingAuthTag
      | Some tag =>
          decipher <- invoke SetAuthTag (setAuthTag decipher tag) ;;
          '(p1, decipher) <- invoke DecipherUpdate
                               (decipher_update decipher (Buffer_from_hex encrypted)) ;;
          '(p2, decipher) <- invoke DecipherFinal (decipher_final decipher) ;;
          ret (utf8_decode (p1 ++ p2))
      end
    else
      decipher <- invoke CreateDecipheriv (createDecipheriv algorithm key iv) ;;
      '(p1, decipher) <- invoke DecipherUpdate
                           (decipher_update decipher (Buffer_from_hex encrypted)) ;;
      '(p2, decipher) <- invoke DecipherFinal (decipher_final decipher) ;;
      ret (utf8_decode (p1 ++ p2)).

(** The salt and the IV that [encrypt] draws in the world [w]. *)
Definition salt_drawn (w : World) (saltLength : Z) : bytes :=
  map (entropy w) (seq (drawn w) (Z.to_nat saltLength)).

Definition iv_drawn (w : World) (saltLength ivLength : Z) : bytes :=
  map (entropy w) (seq (drawn w + Z.to_nat saltLength) (Z.to_nat ivLength)).

(** The steps of a run of [encrypt] that returns a token. *)
Definition encrypt_steps (password text : jsstring) (saltLength ivLength : Z)
    (algorithm : jsstring) (iterations keyLength : Z) (w : World) (spec : Spec.t)
    (key out1 out2 : bytes) (c2 : Cipher) : Prop :=
  text <> [] /\
  0 <= saltLength <= INT32_MAX /\ 0 <= ivLength <= INT32_MAX /\
  supported algorithm = Some spec /\
  keyLength = Spec.keyLength spec /\ ivLength = Spec.ivLength spec /\
  pbkdf2Sync password (salt_drawn w saltLength) iterations keyLength sha256 = Ok key /\
  exists cipher c1,
    createCipheriv algorithm key (iv_drawn w saltLength ivLength) = Ok cipher /\
    cipher_update cipher (utf8_encode text) = Ok (out1, c1) /\
    cipher_final c1 = Ok (out2, c2).


(** What [decrypt] does after it has read salt, IV, ciphertext field and
    tag off the token. *)
Definition decrypt_parsed (password : jsstring) (salt iv : bytes) (encrypted : jsstring)
    (tag : option bytes) (algorithm : jsstring) (iterations keyLength : Z) : M jsstring :=
  _ <- check (validateAlgorithmParameters algorithm keyLength (Buffer_length iv)) ;;
  key <- deriveKey password salt iterations keyLength ;;
  if includes algorithm gcm then
    decipher <- invoke CreateDecipheriv (createDecipheriv algorithm key iv) ;;
    match tag with
    | None => throw MissingAuthTag
    | Some tag =>
        decipher <- invoke SetAuthTag (setAuthTag decipher tag) ;;
        '(p1, decipher) <- invoke DecipherUpdate
                             (decipher_update decipher (Buffer_from_hex encrypted)) ;;
        '(p2, decipher) <- invoke DecipherFinal (decipher_final decipher) ;;
        ret (utf8_decode (p1 ++ p2))
    end
  else
    decipher <- invoke CreateDecipheriv (createDecipheriv algorithm key iv) ;;
    '(p1, decipher) <- invoke DecipherUpdate
                         (decipher_update decipher (Buffer_from_hex encrypted)) ;;
    '(p2, decipher) <- invoke DecipherFinal (decipher_final decipher) ;;
    ret (utf8_decode (p1 ++ p2)).

End CryptoJs.

(** ** PBKDF2 with HMAC-SHA-256

    The key derivation behind [crypto.pbkdf2Sync(..., 'sha256')]: SHA-256
    (FIPS 180-4), HMAC (RFC 2104) and PBKDF2 (RFC 8018). *)

Module SHA256.

Definition mask32 : Z := 0xFFFFFFFF.
Definition add32 (x y : Z) : Z := Z.land (x + y) mask32.
Definition rotr (n x : Z) : Z :=
  Z.lor (Z.shiftr x n) (Z.land (Z.shiftl x (32 - n)) mask32).
Definition shr (n x : Z) : Z := Z.shiftr x n.
Definition not32 (x : Z) : Z := Z.lxor x mask32.

Definition Ch (x y z : Z) : Z := Z.lxor (Z.land x y) (Z.land (not32 x) z).
Definition Maj (x y z : Z) : Z :=
  Z.lxor (Z.lxor (Z.land x y) (Z.land x z)) (Z.land y z).
Definition Sigma0 (x : Z) : Z := Z.lxor (Z.lxor (rotr 2 x) (rotr 13 x)) (rotr 22 x).
Definition Sigma1 (x : Z) : Z := Z.lxor (Z.lxor (rotr 6 x) (rotr 11 x)) (rotr 25 x).
Definition sigma0 (x : Z) : Z := Z.lxor (Z.lxor (rotr 7 x) (rotr 18 x)) (shr 3 x).
Definition sigma1 (x : Z) : Z := Z.lxor (Z.lxor (rotr 17 x) (rotr 19 x)) (shr 10 x).

Definition primes : list Z :=
  [2; 3; 5; 7; 11; 13; 17; 19; 23; 29; 31; 37; 41; 43; 47; 53;
   59; 61; 67; 71; 73; 79; 83; 89; 97; 101; 103; 107; 109; 113; 127; 131;
   137; 139; 149; 151; 157; 163; 167; 173; 179; 181; 191; 193; 197; 199; 211; 223;
   227; 229; 233; 239; 241; 251; 257; 263; 269; 271; 277; 281; 283; 293; 307; 311].

(** The integer cube root, by bisection between [lo] and [hi]. *)
Fixpoint cbrt_between (fuel : nat) (lo hi n : Z) : Z :=
  match fuel with
  | O => lo
  | S fuel' =>
      let mid := (lo + hi) / 2 in
      if mid * mid * mid <=? n then cbrt_between fuel' mid hi n
      else cbrt_between fuel' lo mid n
  end.

Definition cbrt (n : Z) : Z := cbrt_between 40 0 (2 ^ 36) n.

(** The first 32 bits of the fractional parts of the cube roots of the
    first 64 primes, and of the square roots of the first 8. *)
Definition K : list Z :=
  Eval vm_compute in map (fun p => cbrt (p * 2 ^ 96) mod 2 ^ 32) primes.

Definition H0 : list Z :=
  Eval vm_compute in map (fun p => Z.sqrt (p * 2 ^ 64) mod 2 ^ 32) (firstn 8 primes).

Definition be32 (x : Z) : bytes :=
  [byte_of_Z (x / 2 ^ 24 mod 256); byte_of_Z (x / 2 ^ 16 mod 256);
   byte_of_Z (x / 2 ^ 8 mod 256); byte_of_Z (x mod 256)].

Fixpoint words_of (bs : bytes) : list Z :=
  match bs with
  | a :: b :: c :: d :: rest =>
      (((Z_of_byte a * 256 + Z_of_byte b) * 256 + Z_of_byte c) * 256 + Z_of_byte d)
        :: words_of rest
  | _ => []
  end.

(** The message schedule, newest word first while it is built. *)
Fixpoint extend (n : nat) (rev_w : list Z) : list Z :=
  match n with
  | O => rev_w
  | S n' =>
      let x := add32 (add32 (add32 (sigma1 (nth 1 rev_w 0)) (nth 6 rev_w 0))
                            (sigma0 (nth 14 rev_w 0))) (nth 15 rev_w 0) in
      extend n' (x :: rev_w)
  end.

Definition schedule (block : bytes) : list Z := rev (extend 48 (rev (words_of block))).

Definition state : Type := Z * Z * Z * Z * Z * Z * Z * Z.

Definition round (s : state) (kw : Z * Z) : state :=
  let '(a, b, c, d, e, f, g, h) := s in
  let '(k, w) := kw in
  let T1 := add32 (add32 (add32 (add32 h (Sigma1 e)) (Ch e f g)) k) w in
  let T2 := add32 (Sigma0 a) (Maj a b c) in
  (add32 T1 T2, a, b, c, add32 d T1, e, f, g).

Definition compress (s : state) (block : bytes) : state :=
  let '(a, b, c, d, e, f, g, h) := s in
  let '(a', b', c', d', e', f', g', h') :=
    fold_left round (combine K (schedule block)) s in
  (add32 a a', add32 b b', add32 c c', add32 d d',
   add32 e e', add32 f f', add32 g g', add32 h h').

Definition initial : state :=
  (nth 0 H0 0, nth 1 H0 0, nth 2 H0 0, nth 3 H0 0,
   nth 4 H0 0, nth 5 H0 0, nth 6 H0 0, nth 7 H0 0).

Definition pad (msg : bytes) : bytes :=
  let l := Z.of_nat (List.length msg) in
  msg ++ x80 :: repeat x00 (Z.to_nat ((55 - l) mod 64))
      ++ be32 (8 * l / 2 ^ 32) ++ be32 (8 * l mod 2 ^ 32).

Fixpoint blocks (n : nat) (bs : bytes) (s : state) : state :=
  match n with
  | O => s
  | S n' => blocks n' (skipn 64 bs) (compress s (firstn 64 bs))
  end.

Definition digest (s : state) : bytes :=
  let '(a, b, c, d, e, f, g, h) := s in
  be32 a ++ be32 b ++ be32 c ++ be32 d ++ be32 e ++ be32 f ++ be32 g ++ be32 h.

Definition hash (msg : bytes) : bytes :=
  let padded := pad msg in
  digest (blocks (List.length padded / 64) padded initial).

End SHA256.

Module HMAC.

Definition block_size : nat := 64.

Definition xor_with (c : Z) (b : byte) : byte := byte_of_Z (Z.lxor (Z_of_byte b) c).

(** The key of one block: a longer key is hashed first, a shorter one is
    filled up with zero bytes. *)
Definition prepare (key : bytes) : bytes :=
  let k := if (block_size <? List.length key)%nat then SHA256.hash key else key in
  k ++ repeat x00 (block_size - List.length k).

Definition hmac (key msg : bytes) : bytes :=
  let k := prepare key in
  SHA256.hash (map (xor_with 0x5c) k ++ SHA256.hash (map (xor_with 0x36) k ++ msg)).

End HMAC.

Module PBKDF2.

Definition xor_bytes (a b : bytes) : bytes :=
  map (fun p => byte_of_Z (Z.lxor (Z_of_byte (fst p)) (Z_of_byte (snd p))))
    (combine a b).

(** [U_2 xor ... xor U_c] onto [acc], from [u = U_1]. *)
Fixpoint iterate (n : nat) (key u acc : bytes) : bytes :=
  match n with
  | O => acc
  | S n' => let u' := HMAC.hmac key u in iterate n' key u' (xor_bytes acc u')
  end.

(** The block [T_i]. *)
Definition F (key salt : bytes) (c i : Z) : bytes :=
  let u1 := HMAC.hmac key (salt ++ SHA256.be32 i) in
  iterate (Z.to_nat (c - 1)) key u1 u1.

Definition derive (key salt : bytes) (c dkLen : Z) : bytes :=
  firstn (Z.to_nat dkLen)
    (flat_map (fun i => F key salt c (Z.of_nat i))
       (seq 1 (Z.to_nat ((dkLen + 31) / 32)))).

End PBKDF2.

(** ** A reference implementation of the crypto interface

    Executable.  [pbkdf2Sync] is PBKDF2 with HMAC-SHA-256 on the UTF-8
    bytes of the password, behind the argument checks of Node.  The cipher
    is a stand-in: it adds a key stream to the data byte by byte, and the
    GCM tag is a keyed checksum of IV and ciphertext.  The implementation
    keeps the contract [CryptoLaws], which is all the properties of
    [crypto.js] below ask of the module. *)

Module Ref.

Record cipher := {
  c_gcm : bool;
  c_key : bytes;
  c_iv : bytes;
  c_data : bytes;
  c_out : option bytes   (* the ciphertext, once [final] was called *)
}.

Record decipher := {
  d_gcm : bool;
  d_key : bytes;
  d_iv : bytes;
  d_data : bytes;
  d_tag : option bytes
}.

Fixpoint bytes_eqb (a b : bytes) : bool :=
  match a, b with
  | [], [] => true
  | x :: a', y :: b' => Byte.eqb x y && bytes_eqb a' b'
  | _, _ => false
  end.

Definition checksum (bs : bytes) : Z :=
  fold_right (fun b acc => (Z_of_byte b + 31 * acc) mod 256) 7 bs.

Definition pbkdf2Sync (password : jsstring) (salt : bytes)
    (iterations keylen : Z) (digest : jsstring) : result crypto_error bytes :=
  if (1 <=? iterations) && (iterations <=? INT32_MAX)
     && (0 <=? keylen) && (keylen <=? INT32_MAX) then
    if streq digest sha256 then
      Ok (PBKDF2.derive (utf8_encode password) salt iterations keylen)
    else Throw (CryptoError "ERR_CRYPTO_INVALID_DIGEST")
  else Throw OutOfRange.

Definition keystream (key iv : bytes) (i : nat) : Z :=
  Z_of_byte (nth (i mod List.length key) key x00)
  + Z_of_byte (nth (i mod List.length iv) iv x00).

Fixpoint mask (ks : nat -> Z) (i : nat) (data : bytes) : bytes :=
  match data with
  | [] => []
  | b :: rest => byte_of_Z ((Z_of_byte b + ks i) mod 256) :: mask ks (S i) rest
  end.

Fixpoint unmask (ks : nat -> Z) (i : nat) (data : bytes) : bytes :=
  match data with
  | [] => []
  | b :: rest => byte_of_Z ((Z_of_byte b - ks i) mod 256) :: unmask ks (S i) rest
  end.

Definition mac (key iv ct : bytes) : bytes :=
  map (fun k => byte_of_Z ((Z_of_byte k + checksum (iv ++ ct)) mod 256))
    (firstn 16 key).

Definition accepts (algorithm : jsstring) (key iv : bytes) : result crypto_error unit :=
  match supported algorithm with
  | None => Throw (CryptoError "ERR_CRYPTO_UNKNOWN_CIPHER")
  | Some spec =>
      if negb (Buffer_length key =? Spec.keyLength spec)
      then Throw (CryptoError "ERR_CRYPTO_INVALID_KEYLEN")
      else if negb (Buffer_length iv =? Spec.ivLength spec)
      then Throw (CryptoError "ERR_CRYPTO_INVALID_IV")
      else Ok tt
  end.

Definition createCipheriv (algorithm : jsstring) (key iv : bytes)
  : result crypto_error cipher :=
  match accepts algorithm key iv with
  | Throw e => Throw e
  | Ok _ => Ok {| c_gcm := includes algorithm gcm; c_key := key; c_iv := iv;
                  c_data := []; c_out := None |}
  end.

Definition cipher_update (c : cipher) (data : bytes)
  : result crypto_error (bytes * cipher) :=
  match c_out c with
  | Some _ => Throw (CryptoError "ERR_CRYPTO_INVALID_STATE")
  | None => Ok ([], {| c_gcm := c_gcm c; c_key := c_key c; c_iv := c_iv c;
                       c_data := c_data c ++ data; c_out := None |})
  end.

(** The padding of the CBC modes (PKCS#7): [n] bytes of value [n], from 1
    to 16, up to the next multiple of 16. *)
Definition pad (data : bytes) : bytes :=
  let n := (16 - List.length data mod 16)%nat in
  data ++ repeat (byte_of_Z (Z.of_nat n)) n.

Definition unpad (data : bytes) : option bytes :=
  let len := List.length data in
  let b := last data x00 in
  let n := Z.to_nat (Z_of_byte b) in
  if (1 <=? n)%nat && (n <=? 16)%nat && (n <=? len)%nat
     && forallb (Byte.eqb b) (skipn (len - n) data)
  then Some (firstn (len - n) data)
  else None.

Definition cipher_final (c : cipher) : result crypto_error (bytes * cipher) :=
  match c_out c with
  | Some _ => Throw (CryptoError "ERR_CRYPTO_INVALID_STATE")
  | None =>
      let plain := if c_gcm c then c_data c else pad (c_data c) in
      let ct := mask (keystream (c_key c) (c_iv c)) 0 plain in
      Ok (ct, {| c_gcm := c_gcm c; c_key := c_key c; c_iv := c_iv c;
                 c_data := c_data c; c_out := Some ct |})
  end.

Definition getAuthTag (c : cipher) : result crypto_error bytes :=
  match c_gcm c, c_out c with
  | true, Some ct => Ok (mac (c_key c) (c_iv c) ct)
  | _, _ => Throw (CryptoError "ERR_CRYPTO_INVALID_STATE")
  end.

Definition createDecipheriv (algorithm : jsstring) (key iv : bytes)
  : result crypto_error decipher :=
  match accepts algorithm key iv with
  | Throw e => Throw e
  | Ok _ => Ok {| d_gcm := includes algorithm gcm; d_key := key; d_iv := iv;
                  d_data := []; d_tag := None |}
  end.

Definition setAuthTag (d : decipher) (tag : bytes) : result crypto_error decipher :=
  if d_gcm d then
    Ok {| d_gcm := true; d_key := d_key d; d_iv := d_iv d;
          d_data := d_data d; d_tag := Some tag |}
  else Throw (CryptoError "ERR_CRYPTO_INVALID_STATE").

Definition decipher_update (d : decipher) (data : bytes)
  : result crypto_error (bytes * decipher) :=
  Ok ([], {| d_gcm := d_gcm d; d_key := d_key d; d_iv := d_iv d;
             d_data := d_data d ++ data; d_tag := d_tag d |}).

Definition decipher_final (d : decipher) : result crypto_error (bytes * decipher) :=
  let plain := unmask (keystream (d_key d) (d_iv d)) 0 (d_data d) in
  if d_gcm d then
    match d_tag d with
    | Some tag =>
        if bytes_eqb tag (mac (d_key d) (d_iv d) (d_data d))
        then Ok (plain, d)
        else Throw AuthenticationFailed
    | None => Throw (CryptoError "ERR_CRYPTO_INVALID_STATE")
    end
  else if (List.length plain mod 16 =? 0)%nat then
    match unpad plain with
    | Some data => Ok (data, d)
    | None => Throw PaddingOrKeyError
    end
  else Throw (CryptoError "ERR_OSSL_WRONG_FINAL_BLOCK_LENGTH").

End Ref.

Definition RefLib : CryptoLib := {|
  Cipher := Ref.cipher;
  Decipher := Ref.decipher;
  pbkdf2Sync := Ref.pbkdf2Sync;
  createCipheriv := Ref.createCipheriv;
  cipher_update := Ref.cipher_update;
  cipher_final := Ref.cipher_final;
  getAuthTag := Ref.getAuthTag;
  createDecipheriv := Ref.createDecipheriv;
  setAuthTag := Ref.setAuthTag;
  decipher_update := Ref.decipher_update;
  decipher_final := Ref.decipher_final
|}.

(** A world to run examples in: the generator counts upwards from 1. *)
Definition world0 : World :=
  {| entropy := fun i => byte_of_Z ((Z.of_nat i + 1) mod 256); drawn := 0; calls := [] |}.

(** The token that [encrypt] makes of the plaintext "hi" under the password
    "pw" with AES-128-CBC, one iteration and a salt of two bytes, in
    [world0] on the reference implementation. *)
Definition token_hi : jsstring :=
  js "0102:030405060708090a0b0c0d0e0f101112:3ff077f0218928debad4f7d45130a358".

Definition ran {A} (m : M A) (w : World) : result error A * nat * list call :=
  let '(r, w') := m w in (r, drawn w', calls w').

(** Encrypt in [w], then decrypt the token: what comes back. *)
Definition roundtrip {L : CryptoLib} (passwordA passwordB text : jsstring)
    (saltLength ivLength : Z) (algorithm : jsstring) (iterations keyLength : Z)
    (w : World) : result error jsstring :=
  match encrypt passwordA text saltLength ivLength algorithm iterations keyLength w with
  | (Ok token, w1) => fst (decrypt passwordB token algorithm iterations keyLength w1)
  | (Throw e, _) => Throw e
  end.

(** ** The command line (index.js)

    The validators that [EncryptionApp] hands to its prompts and the two
    error handlers.  A validator answers [true] or the message to show. *)

Inductive validation :=
| Valid
| Invalid (message : jsstring).

(** White space and line terminators: what [trim] and [parseInt] skip. *)
Definition isWhiteSpace (c : codeunit) : bool :=
  ((0x09 <=? c) && (c <=? 0x0D)) || (c =? 0x20) || (c =? 0xA0) || (c =? 0x1680)
  || ((0x2000 <=? c) && (c <=? 0x200A)) || (c =? 0x2028) || (c =? 0x2029)
  || (c =? 0x202F) || (c =? 0x205F) || (c =? 0x3000) || (c =? 0xFEFF).

Fixpoint trimStart (s : jsstring) : jsstring :=
  match s with
  | [] => []
  | c :: rest => if isWhiteSpace c then trimStart rest else s
  end.

Definition trimEnd (s : jsstring) : jsstring := rev (trimStart (rev s)).

(** [s.trim()] *)
Definition trim (s : jsstring) : jsstring := trimEnd (trimStart s).

(** The value of a digit or letter as a digit of some radix. *)
Definition digit_value (c : codeunit) : option Z :=
  if (48 <=? c) && (c <=? 57) then Some (c - 48)
  else if (97 <=? c) && (c <=? 122) then Some (c - 87)
  else if (65 <=? c) && (c <=? 90) then Some (c - 55)
  else None.

(** The values of the digits of the radix that a string starts with. *)
Fixpoint leading_digits (radix : Z) (s : jsstring) : list Z :=
  match s with
  | [] => []
  | c :: rest =>
      match digit_value c with
      | Some d => if d <? radix then d :: leading_digits radix rest else []
      | None => []
      end
  end.

(** The integer that digits denote in a radix. *)
Definition mathInt (radix : Z) (ds : list Z) : Z :=
  fold_left (fun acc d => acc * radix + d) ds 0.

(** The radix as a 32-bit integer. *)
Definition ToInt32 (n : Z) : Z := (n + 2 ^ 31) mod 2 ^ 32 - 2 ^ 31.

(** [parseInt(string, radix)]; [None] is NaN.  The result is the integer
    that the digits denote.  The Number of JavaScript is that integer
    rounded to a double, which is zero, below zero or above zero exactly
    when the integer is. *)
Definition parseInt (string : jsstring) (radix : Z) : option Z :=
  let inputString := trimStart string in
  let sign := match inputString with
              | c :: _ => if c =? 45 then -1 else 1
              | [] => 1
              end in
  let unsigned := match inputString with
                  | c :: rest => if (c =? 43) || (c =? 45) then rest else inputString
                  | [] => []
                  end in
  let R := ToInt32 radix in
  if negb (R =? 0) && ((R <? 2) || (36 <? R)) then None
  else
    let stripPrefix := (R =? 0) || (R =? 16) in
    let R := if R =? 0 then 10 else R in
    let '(numeral, R) :=
      match unsigned with
      | zero :: x :: rest =>
          if stripPrefix && (zero =? 48) && ((x =? 120) || (x =? 88)) then (rest, 16)
          else (unsigned, R)
      | _ => (unsigned, R)
      end in
    match leading_digits R numeral with
    | [] => None
    | ds => Some (sign * mathInt R ds)
    end.

(** [validateNumericInput(input)], the validator of the numeric settings. *)
Definition validateNumericInput (input : jsstring) : validation :=
  match parseInt input 10 with
  | None => Invalid (js "Please enter a valid number.")
  | Some num =>
      if num <=? 0 then Invalid (js "Please enter a number greater than zero.")
      else Valid
  end.

(** The validator that [validateInput] gives to its prompt, for the text,
    the token and the password: the input whose [trim()] is the empty
    string gets the message, any other [true]. *)
Definition validateInput_validate (input : jsstring) : validation :=
  if streq (trim input) [] then Invalid (js "Field can't be empty") else Valid.

(** [String(error)] for the [Error] objects that reach the handlers:
    [Error.prototype.toString] gives the name, [Error], a colon and the
    message, or the name alone when the message is empty.  The errors of
    the crypto module other than the two of [decipher.final] are stood for
    by their code here, as they are in [message]. *)
Definition String_of_error (e : error) : jsstring :=
  match message e with
  | [] => js "Error"
  | msg => js "Error: " ++ msg
  end.

(** What is written to the console. *)
Inductive output :=
| console_log (line : jsstring)
| console_error (line : jsstring).

(** The warning sign that starts the lines of the handlers, U+26A0 U+FE0F,
    and a space. *)
Definition warning : jsstring := [0x26A0; 0xFE0F; 32].

Section Handlers.

(** [chalk.bgRed], which wraps its argument in the escape codes of the
    terminal, if it has colours. *)
Context (bgRed : jsstring -> jsstring).

Definition handleError (e : error) : list output :=
  [console_error (bgRed (warning ++ message e))].

Definition handleDecryptionError (e : error) : list output :=
  if includes (String_of_error e) (js "1C800064")
  then [console_log (bgRed (warning ++ js "Wrong Password"))]
  else handleError e.

End Handlers.

(** Decimal digits, for the statements about [parseInt]. *)
Definition isDigit (c : codeunit) : bool := (48 <=? c) && (c <=? 57).

(** Code points that are not surrogates. *)
Definition scalar (cp : Z) : Prop := 0 <= cp <= 0xD7FF \/ 0xE000 <= cp <= 0x10FFFF.

(** A decoder in the middle of a sequence is on its way to a scalar value:
    whatever bytes within the bounds follow, the code point they complete
    is one. *)
Definition on_course (d : decoder) : Prop :=
  0x80 <= lower_boundary d /\ upper_boundary d <= 0xBF /\
  (bytes_needed d = 1 \/ bytes_needed d = 2 \/ bytes_needed d = 3) /\
  forall v, lower_boundary d <= v <= upper_boundary d ->
    let c := code_point d * 64 + v mod 64 in
    let width := 64 ^ (bytes_needed d - 1) in
    (0 <= c * width /\ c * width + width - 1 <= 0xD7FF) \/
    (0xE000 <= c * width /\ c * width + width - 1 <= 0x10FFFF).

(** The run of [encrypt] that makes [token_hi]. *)
Definition run_hi : result error jsstring * World :=
  encrypt (L := RefLib) (js "pw") (js "hi") 2 16 (js "aes-128-cbc") 1 16 world0.

(** * Properties *)

(** ** Bytes *)

Lemma Z_of_byte_range (b : byte) : 0 <= Z_of_byte b < 256.
Proof.
  unfold Z_of_byte. pose proof (Byte.to_N_bounded b). lia.
Qed.

Lemma byte_of_Z_of_byte (b : byte) : byte_of_Z (Z_of_byte b) = b.
Proof.
  unfold byte_of_Z, Z_of_byte. now rewrite N2Z.id, Byte.of_to_N.
Qed.

Lemma Z_of_byte_of_Z (z : Z) : 0 <= z < 256 -> Z_of_byte (byte_of_Z z) = z.
Proof.
  intros Hz. unfold byte_of_Z, Z_of_byte.
  destruct (Byte.of_N (Z.to_N z)) as [b|] eqn:E.
  - apply Byte.to_of_N in E. rewrite E. lia.
  - apply Byte.of_N_None_iff in E. lia.
Qed.

(** Comparisons of integers decided from the hypotheses. *)
Ltac zdecide :=
  repeat match goal with
    | |- context [?a <=? ?b] =>
        destruct (Z.leb_spec a b); [| try (exfalso; lia)]; try (exfalso; lia)
    | |- context [?a <? ?b] =>
        destruct (Z.ltb_spec a b); [| try (exfalso; lia)]; try (exfalso; lia)
    | |- context [?a =? ?b] =>
        destruct (Z.eqb_spec a b); [| try (exfalso; lia)]; try (exfalso; lia)
    end;
  cbn [andb orb negb].

(** ** Strings *)

Lemma streq_eq (a b : jsstring) : streq a b = true <-> a = b.
Proof.
  revert b. induction a as [|x a IH]; intros [|y b]; simpl; split; intros H;
    try reflexivity; try discriminate.
  - apply andb_true_iff in H as [Hx Hs]. apply Z.eqb_eq in Hx.
    apply IH in Hs. now subst.
  - injection H as -> ->. rewrite Z.eqb_refl. simpl. now apply IH.
Qed.

Lemma streq_refl (a : jsstring) : streq a a = true.
Proof. now apply streq_eq. Qed.

Lemma split_without (sep : codeunit) (s : jsstring) :
  ~ In sep s -> split sep s = [s].
Proof.
  induction s as [|c s IH]; simpl; intros H; [reflexivity|].
  destruct (Z.eqb_spec c sep) as [->|Hne]; [exfalso; apply H; now left|].
  rewrite IH; [reflexivity|]. intros Hin. apply H. now right.
Qed.

Lemma split_app (sep : codeunit) (a b : jsstring) :
  ~ In sep a -> split sep (a ++ sep :: b) = a :: split sep b.
Proof.
  induction a as [|c a IH]; simpl; intros H.
  - now rewrite Z.eqb_refl.
  - destruct (Z.eqb_spec c sep) as [->|Hne]; [exfalso; apply H; now left|].
    rewrite IH; [reflexivity|]. intros Hin. apply H. now right.
Qed.

(** No field of [split] holds the separator. *)
Lemma split_fields (sep : codeunit) (s : jsstring) :
  Forall (fun f => ~ In sep f) (split sep s).
Proof.
  induction s as [|c s IH]; simpl.
  - constructor; [intros []|constructor].
  - destruct (Z.eqb_spec c sep) as [->|Hne].
    + constructor; [intros []|exact IH].
    + destruct (split sep s) as [|f fs]; [constructor; [|constructor]|].
      * intros [H|[]]. congruence.
      * inversion IH as [|? ? Hf Hfs]; subst. constructor; [|exact Hfs].
        intros [H|H]; [congruence|now apply Hf].
Qed.

(** ** Hexadecimal *)

Lemma unhex_hex_digit (n : Z) : 0 <= n < 16 -> unhex (hex_digit n) = Some n.
Proof.
  intros Hn. unfold hex_digit, unhex.
  destruct (Z.ltb_spec n 10); zdecide; f_equal; lia.
Qed.

Lemma hex_digit_lower (n : Z) : 0 <= n < 16 -> is_lower_hex (hex_digit n) = true.
Proof.
  intros Hn. unfold hex_digit, is_lower_hex.
  destruct (Z.ltb_spec n 10); zdecide; reflexivity.
Qed.

Lemma nibbles (b : byte) :
  0 <= Z_of_byte b / 16 < 16 /\ 0 <= Z_of_byte b mod 16 < 16 /\
  16 * (Z_of_byte b / 16) + Z_of_byte b mod 16 = Z_of_byte b.
Proof.
  pose proof (Z_of_byte_range b). Z.div_mod_to_equations. lia.
Qed.

Lemma Buffer_from_hex_app (b : byte) (rest : jsstring) :
  Buffer_from_hex (hex_of_byte b ++ rest) = b :: Buffer_from_hex rest.
Proof.
  destruct (nibbles b) as (Hhi & Hlo & Hsum).
  unfold hex_of_byte. cbn [app Buffer_from_hex].
  rewrite !unhex_hex_digit by assumption.
  now rewrite Hsum, byte_of_Z_of_byte.
Qed.

(** Decoding the hexadecimal form of a Buffer gives the Buffer back. *)
Lemma Buffer_from_hex_toString (b : bytes) : Buffer_from_hex (toString_hex b) = b.
Proof.
  induction b as [|x b IH]; [reflexivity|].
  cbn [toString_hex flat_map]. rewrite Buffer_from_hex_app. f_equal. exact IH.
Qed.

Lemma toString_hex_app (a b : bytes) :
  toString_hex (a ++ b) = toString_hex a ++ toString_hex b.
Proof. apply flat_map_app. Qed.

Lemma toString_hex_lower (b : bytes) :
  forallb is_lower_hex (toString_hex b) = true.
Proof.
  induction b as [|x b IH]; [reflexivity|].
  destruct (nibbles x) as (Hhi & Hlo & _).
  unfold toString_hex in *.
  cbn [flat_map hex_of_byte app forallb].
  now rewrite !hex_digit_lower, IH by assumption.
Qed.

Lemma lower_hex_no_colon (s : jsstring) :
  forallb is_lower_hex s = true -> ~ In colon s.
Proof.
  intros H Hin. rewrite forallb_forall in H. apply H in Hin.
  discriminate Hin.
Qed.

Lemma toString_hex_no_colon (b : bytes) : ~ In colon (toString_hex b).
Proof. apply lower_hex_no_colon, toString_hex_lower. Qed.

Lemma toString_hex_length (b : bytes) :
  Z.of_nat (List.length (toString_hex b)) = 2 * Buffer_length b.
Proof.
  unfold toString_hex, Buffer_length.
  induction b as [|x b IH]; [reflexivity|].
  cbn [flat_map List.length hex_of_byte app]. lia.
Qed.

(** ** UTF-8 *)

Ltac zlia := Z.div_mod_to_equations; lia.

Ltac zdecide_div :=
  repeat match goal with
    | |- context [?a <=? ?b] =>
        destruct (Z.leb_spec a b); [| try (exfalso; zlia)]; try (exfalso; zlia)
    | |- context [?a <? ?b] =>
        destruct (Z.ltb_spec a b); [| try (exfalso; zlia)]; try (exfalso; zlia)
    | |- context [?a =? ?b] =>
        destruct (Z.eqb_spec a b); [| try (exfalso; zlia)]; try (exfalso; zlia)
    end;
  cbn [andb orb negb].

Lemma utf8_decode_start (v : Z) (rest : bytes) :
  0 <= v < 256 ->
  utf8_decode_from None (byte_of_Z v :: rest)
  = fst (utf8_start v) ++ utf8_decode_from (snd (utf8_start v)) rest.
Proof.
  intros Hv. cbn [utf8_decode_from]. rewrite Z_of_byte_of_Z by assumption.
  now destruct (utf8_start v).
Qed.

Lemma utf8_decode_more (cp n lo hi v : Z) (rest : bytes) :
  0 <= v < 256 -> lo <= v <= hi -> n <> 1 ->
  utf8_decode_from
    (Some {| code_point := cp; bytes_needed := n;
             lower_boundary := lo; upper_boundary := hi |})
    (byte_of_Z v :: rest)
  = utf8_decode_from
      (Some {| code_point := cp * 64 + v mod 64; bytes_needed := n - 1;
               lower_boundary := 0x80; upper_boundary := 0xBF |}) rest.
Proof.
  intros Hv Hb Hn.
  cbn [utf8_decode_from code_point bytes_needed lower_boundary upper_boundary].
  rewrite Z_of_byte_of_Z by assumption.
  destruct (Z.leb_spec lo v); [|lia]. destruct (Z.leb_spec v hi); [|lia].
  destruct (Z.eqb_spec n 1); [lia|]. reflexivity.
Qed.

Lemma utf8_decode_last (cp n lo hi v : Z) (rest : bytes) :
  0 <= v < 256 -> lo <= v <= hi -> n = 1 ->
  utf8_decode_from
    (Some {| code_point := cp; bytes_needed := n;
             lower_boundary := lo; upper_boundary := hi |})
    (byte_of_Z v :: rest)
  = units_of_codepoint (cp * 64 + v mod 64) ++ utf8_decode_from None rest.
Proof.
  intros Hv Hb ->.
  cbn [utf8_decode_from code_point bytes_needed lower_boundary upper_boundary].
  rewrite Z_of_byte_of_Z by assumption.
  destruct (Z.leb_spec lo v); [|lia]. destruct (Z.leb_spec v hi); [|lia].
  reflexivity.
Qed.

Ltac decode_first :=
  cbn [app]; rewrite utf8_decode_start by zlia;
  unfold utf8_start; zdecide_div; cbn [fst snd app].

(** A code point that is not a surrogate is decoded from its encoding. *)
Lemma decode_codepoint (cp : Z) (tail : bytes) :
  0 <= cp < 0x110000 -> ~ (0xD800 <= cp <= 0xDFFF) ->
  utf8_decode_from None (utf8_of_codepoint cp ++ tail)
  = units_of_codepoint cp ++ utf8_decode_from None tail.
Proof.
  intros Hcp Hsur. unfold utf8_of_codepoint.
  destruct (Z.ltb_spec cp 0x80); [|destruct (Z.ltb_spec cp 0x800);
    [|destruct (Z.ltb_spec cp 0x10000)]].
  - decode_first. unfold units_of_codepoint. zdecide_div. reflexivity.
  - decode_first. rewrite utf8_decode_last by zlia. do 2 f_equal. zlia.
  - decode_first; rewrite utf8_decode_more by zlia;
      rewrite utf8_decode_last by zlia; do 2 f_equal; zlia.
  - decode_first; do 2 (rewrite utf8_decode_more by zlia);
      rewrite utf8_decode_last by zlia; do 2 f_equal; zlia.
Qed.

Lemma surrogate_cases (u : codeunit) :
  (is_high_surrogate u = true /\ 0xD800 <= u <= 0xDBFF) \/
  (is_high_surrogate u = false /\ is_low_surrogate u = true /\ 0xDC00 <= u <= 0xDFFF) \/
  (is_high_surrogate u = false /\ is_low_surrogate u = false /\
   ~ (0xD800 <= u <= 0xDFFF)).
Proof.
  unfold is_high_surrogate, is_low_surrogate.
  destruct (Z.leb_spec 0xD800 u), (Z.leb_spec u 0xDBFF),
    (Z.leb_spec 0xDC00 u), (Z.leb_spec u 0xDFFF); cbn [andb]; lia.
Qed.

Lemma decode_replacement (tail : bytes) :
  utf8_decode_from None (utf8_of_codepoint replacement ++ tail)
  = replacement :: utf8_decode_from None tail.
Proof.
  rewrite decode_codepoint by (unfold replacement; lia). reflexivity.
Qed.

Lemma decode_pair (u l : codeunit) (tail : bytes) :
  0xD800 <= u <= 0xDBFF -> 0xDC00 <= l <= 0xDFFF ->
  utf8_decode_from None
    (utf8_of_codepoint (0x10000 + (u - 0xD800) * 1024 + (l - 0xDC00)) ++ tail)
  = u :: l :: utf8_decode_from None tail.
Proof.
  intros Hu Hl. rewrite decode_codepoint by lia.
  unfold units_of_codepoint. zdecide. cbn [app]. do 2 f_equal; [zlia|].
  f_equal. zlia.
Qed.

Lemma utf8_roundtrip_bounded (n : nat) (s : jsstring) :
  (List.length s <= n)%nat -> code_units s ->
  utf8_decode (utf8_encode s) = toWellFormed s.
Proof.
  unfold utf8_decode. revert s.
  induction n as [|n IH]; intros [|u rest] Hlen Hs; try reflexivity.
  - simpl in Hlen. lia.
  - simpl in Hlen. inversion Hs as [|? ? Hu Hrest]; subst.
    assert (IHrest : utf8_decode_from None (utf8_encode rest) = toWellFormed rest)
      by (apply IH; [lia|assumption]).
    cbn [utf8_encode toWellFormed].
    destruct (surrogate_cases u) as [(-> & Hr)|[(-> & -> & Hr)|(-> & -> & Hr)]].
    + destruct rest as [|l rest']; [reflexivity|].
      destruct (surrogate_cases l) as [(Hh & Hr')|[(Hh & Hl & Hr')|(Hh & Hl & Hr')]].
      * assert (is_low_surrogate l = false) as ->
          by (unfold is_low_surrogate; zdecide; reflexivity).
        rewrite decode_replacement. now rewrite IHrest.
      * rewrite Hl. rewrite decode_pair by assumption. do 2 f_equal.
        inversion Hrest; subst. apply IH; [simpl in Hlen; lia|assumption].
      * rewrite Hl. rewrite decode_replacement. now rewrite IHrest.
    + rewrite decode_replacement. now rewrite IHrest.
    + rewrite decode_codepoint by lia. unfold units_of_codepoint.
      zdecide. cbn [app]. now rewrite IHrest.
Qed.

(** Encoding a string as UTF-8 and decoding it gives [toWellFormed] of it. *)
Lemma utf8_roundtrip (s : jsstring) :
  code_units s -> utf8_decode (utf8_encode s) = toWellFormed s.
Proof. apply (utf8_roundtrip_bounded (List.length s)). lia. Qed.

Lemma isWellFormed_bounded (n : nat) (s : jsstring) :
  (List.length s <= n)%nat -> isWellFormed s = true ->
  code_units s /\ toWellFormed s = s.
Proof.
  revert s. induction n as [|n IH]; intros [|u rest] Hlen Hwf;
    try (split; [constructor|reflexivity]).
  - simpl in Hlen. lia.
  - simpl in Hlen. cbn [isWellFormed toWellFormed] in *.
    destruct (surrogate_cases u) as [(Hh & Hr)|[(Hh & Hl & Hr)|(Hh & Hl & Hr)]];
      rewrite Hh in *; try rewrite Hl in *; try discriminate.
    + destruct rest as [|l rest']; [discriminate|].
      apply andb_true_iff in Hwf as [Hl Hwf]. rewrite Hl.
      destruct (IH rest') as [Hc Ht]; [simpl in Hlen; lia|assumption|].
      assert (0xDC00 <= l <= 0xDFFF)
        by (unfold is_low_surrogate in Hl; apply andb_true_iff in Hl; lia).
      split; [repeat constructor; try lia; assumption|now rewrite Ht].
    + apply andb_true_iff in Hwf as [Hu Hwf]. apply andb_true_iff in Hu.
      destruct (IH rest) as [Hc Ht]; [lia|assumption|].
      split; [constructor; [lia|assumption]|now rewrite Ht].
Qed.

(** A well-formed string survives the UTF-8 round trip. *)
Lemma utf8_roundtrip_wellformed (s : jsstring) :
  isWellFormed s = true -> utf8_decode (utf8_encode s) = s.
Proof.
  intros Hwf.
  destruct (isWellFormed_bounded (List.length s) s) as [Hc Ht]; [lia|assumption|].
  now rewrite utf8_roundtrip, Ht.
Qed.

(** What the decoder puts out is well formed, whatever the bytes. *)

Lemma wf_one (u : Z) (rest : jsstring) :
  0 <= u <= 0xD7FF \/ 0xE000 <= u <= 0xFFFF ->
  isWellFormed rest = true -> isWellFormed (u :: rest) = true.
Proof.
  intros Hu Hr. cbn [isWellFormed]. unfold is_high_surrogate, is_low_surrogate.
  rewrite Hr. zdecide; reflexivity.
Qed.

Lemma wf_units (cp : Z) (rest : jsstring) :
  scalar cp -> isWellFormed rest = true ->
  isWellFormed (units_of_codepoint cp ++ rest) = true.
Proof.
  intros Hs Hr. unfold units_of_codepoint, scalar in *.
  destruct (Z.ltb_spec cp 0x10000).
  - cbn [app]. apply wf_one; [lia|assumption].
  - cbn [app isWellFormed]. unfold is_high_surrogate, is_low_surrogate.
    rewrite Hr. zdecide_div; reflexivity.
Qed.

Lemma utf8_start_wf (v : Z) :
  0 <= v < 256 ->
  (forall rest, isWellFormed rest = true ->
     isWellFormed (fst (utf8_start v) ++ rest) = true) /\
  match snd (utf8_start v) with
  | Some d => on_course d
  | None => True
  end.
Proof.
  intros Hv. unfold utf8_start.
  destruct (Z.leb_spec v 0x7F).
  { cbn [fst snd app]. split; [|exact I]. intros rest Hr. apply wf_one; [lia|assumption]. }
  destruct (Z.leb_spec 0xC2 v); destruct (Z.leb_spec v 0xDF); cbn [andb].
  1:{ cbn [fst snd app]. split; [now intros|]. unfold on_course.
      cbn [code_point bytes_needed lower_boundary upper_boundary].
      repeat split; try lia. intros x Hx. change (64 ^ (1 - 1)) with 1. cbv zeta.
      left. zlia. }
  all: destruct (Z.leb_spec 0xE0 v); destruct (Z.leb_spec v 0xEF); cbn [andb].
  all: try (cbn [fst snd app]; split; [now intros|]; unfold on_course;
            cbn [code_point bytes_needed lower_boundary upper_boundary];
            destruct (Z.eqb_spec v 0xE0); destruct (Z.eqb_spec v 0xED);
            (repeat split; try lia); intros x Hx; change (64 ^ (2 - 1)) with 64;
            cbv zeta; zlia).
  all: destruct (Z.leb_spec 0xF0 v); destruct (Z.leb_spec v 0xF4); cbn [andb].
  all: try (cbn [fst snd app]; split; [now intros|]; unfold on_course;
            cbn [code_point bytes_needed lower_boundary upper_boundary];
            destruct (Z.eqb_spec v 0xF0); destruct (Z.eqb_spec v 0xF4);
            (repeat split; try lia); intros x Hx; change (64 ^ (3 - 1)) with 4096;
            cbv zeta; zlia).
  all: cbn [fst snd app]; (split; [|exact I]); intros rest Hr;
    apply wf_one; [unfold replacement; lia|assumption].
Qed.

Lemma utf8_decode_from_wf (bs : bytes) :
  forall st, match st with Some d => on_course d | None => True end ->
  isWellFormed (utf8_decode_from st bs) = true.
Proof.
  induction bs as [|b rest IH]; intros st Hst.
  - destruct st; [apply wf_one; [unfold replacement; lia|]|]; reflexivity.
  - cbn [utf8_decode_from]. pose proof (Z_of_byte_range b) as Hb.
    set (v := Z_of_byte b) in *.
    destruct (utf8_start_wf v Hb) as [Hout Hnext].
    destruct st as [d|].
    + destruct Hst as (Hlo & Hhi & Hn & Hc).
      destruct (Z.leb_spec (lower_boundary d) v);
        destruct (Z.leb_spec v (upper_boundary d)); cbn [andb].
      2-4: apply wf_one; [unfold replacement; lia|];
           destruct (utf8_start v) as [out st']; now apply Hout, IH.
      specialize (Hc v (conj H H0)). cbv zeta in Hc.
      destruct (Z.eqb_spec (bytes_needed d) 1) as [E|E].
      * rewrite E in Hc. change (64 ^ (1 - 1)) with 1 in Hc.
        apply wf_units; [unfold scalar; lia|now apply IH].
      * apply IH. unfold on_course.
        cbn [code_point bytes_needed lower_boundary upper_boundary].
        repeat split; try lia. intros x Hx. cbv zeta.
        destruct Hn as [Hn|[Hn|Hn]]; [lia| |]; rewrite Hn in *.
        -- change (64 ^ (2 - 1)) with 64 in Hc. change (64 ^ (2 - 1 - 1)) with 1.
           zlia.
        -- change (64 ^ (3 - 1)) with 4096 in Hc. change (64 ^ (3 - 1 - 1)) with 64.
           zlia.
    + destruct (utf8_start v) as [out st']. now apply Hout, IH.
Qed.

Lemma utf8_decode_wf (bs : bytes) : isWellFormed (utf8_decode bs) = true.
Proof. now apply utf8_decode_from_wf. Qed.

(** ** The table of algorithms *)

(** The six identifiers, each with its key and IV length. *)
Lemma supported_cases (algorithm : jsstring) (spec : Spec.t) :
  supported algorithm = Some spec ->
  (CBC algorithm /\ includes algorithm gcm = false /\ Spec.ivLength spec = 16 \/
   GCM algorithm /\ includes algorithm gcm = true /\ Spec.ivLength spec = 12) /\
  (Spec.keyLength spec = 16 \/ Spec.keyLength spec = 24 \/ Spec.keyLength spec = 32).
Proof.
  unfold supported, algorithmSpecs. cbn [own_property].
  repeat match goal with
    | |- context [streq ?k algorithm] =>
        let E := fresh "E" in
        destruct (streq k algorithm) eqn:E;
        [apply streq_eq in E; subst algorithm;
         let Hs := fresh "Hs" in intros Hs; injection Hs as <-;
         unfold CBC, GCM; cbn; intuition congruence|clear E]
    end.
  discriminate.
Qed.

Lemma supported_iff (algorithm : jsstring) :
  (exists spec, supported algorithm = Some spec) <-> CBC algorithm \/ GCM algorithm.
Proof.
  split.
  - intros [spec H]. apply supported_cases in H. tauto.
  - unfold CBC, GCM. intros [ [-> | [-> | ->] ] | [-> | [-> | ->] ] ]; eexists; reflexivity.
Qed.

Lemma get_property_supported (algorithm : jsstring) (spec : Spec.t) :
  supported algorithm = Some spec ->
  get_property algorithmSpecs algorithm = Own spec.
Proof. unfold supported, get_property. now intros ->. Qed.

(** What [validateAlgorithmParameters] does, case by case. *)
Lemma validate_supported (algorithm : jsstring) (spec : Spec.t) (keyLength ivLength : Z) :
  supported algorithm = Some spec ->
  validateAlgorithmParameters algorithm keyLength ivLength =
    if negb (keyLength =? Spec.keyLength spec) then
      Throw (KeyLengthMismatch algorithm (Some (Spec.keyLength spec)))
    else if negb (ivLength =? Spec.ivLength spec) then
      Throw (IVLengthMismatch algorithm (Some (Spec.ivLength spec)))
    else Ok tt.
Proof.
  intros H. unfold validateAlgorithmParameters.
  now rewrite (get_property_supported _ _ H).
Qed.

Lemma validate_ok (algorithm : jsstring) (spec : Spec.t) :
  supported algorithm = Some spec ->
  validateAlgorithmParameters algorithm (Spec.keyLength spec) (Spec.ivLength spec) = Ok tt.
Proof.
  intros H. rewrite (validate_supported _ _ _ _ H). now rewrite !Z.eqb_refl.
Qed.

Lemma validate_unknown (algorithm : jsstring) (keyLength ivLength : Z) :
  supported algorithm = None ->
  validateAlgorithmParameters algorithm keyLength ivLength =
    if existsb (streq algorithm) Object_prototype
    then Throw (KeyLengthMismatch algorithm None)
    else Throw InvalidAlgorithm.
Proof.
  intros H. unfold validateAlgorithmParameters, get_property.
  unfold supported in H. rewrite H.
  now destruct (existsb (streq algorithm) Object_prototype).
Qed.

(** Every name of [Object.prototype] gets past the guard for unknown
    algorithms. *)
Lemma validate_inherited (algorithm : jsstring) (keyLength ivLength : Z) :
  In algorithm Object_prototype ->
  validateAlgorithmParameters algorithm keyLength ivLength
  = Throw (KeyLengthMismatch algorithm None).
Proof.
  intros Hin.
  assert (Hs : supported algorithm = None).
  { cbv [Object_prototype map] in Hin.
    repeat (destruct Hin as [<-|Hin]; [reflexivity|]). destruct Hin. }
  rewrite (validate_unknown _ _ _ Hs).
  assert (He : existsb (streq algorithm) Object_prototype = true).
  { apply existsb_exists. exists algorithm. split; [exact Hin|apply streq_refl]. }
  now rewrite He.
Qed.

Example message_key_length :
  message (KeyLengthMismatch (js "aes-256-cbc") (Some 32))
  = js "aes-256-cbc requires a 32-byte key length.".
Proof. reflexivity. Qed.

(** Validation succeeds exactly on a supported algorithm with its own
    lengths. *)
Lemma validate_ok_inv (algorithm : jsstring) (keyLength ivLength : Z) :
  validateAlgorithmParameters algorithm keyLength ivLength = Ok tt ->
  exists spec, supported algorithm = Some spec /\
               keyLength = Spec.keyLength spec /\ ivLength = Spec.ivLength spec.
Proof.
  destruct (supported algorithm) as [spec|] eqn:E.
  - rewrite (validate_supported _ _ _ _ E).
    destruct (Z.eqb_spec keyLength (Spec.keyLength spec)); [|discriminate].
    destruct (Z.eqb_spec ivLength (Spec.ivLength spec)); [|discriminate].
    intros _. now exists spec.
  - rewrite (validate_unknown _ _ _ E).
    destruct (existsb (streq algorithm) Object_prototype); discriminate.
Qed.

(** The errors of validation, and whom they name. *)
Lemma validate_throws_named (algorithm : jsstring) (keyLength ivLength : Z) (e : error) :
  validateAlgorithmParameters algorithm keyLength ivLength = Throw e ->
  e = InvalidAlgorithm \/
  (In algorithm Object_prototype /\ e = KeyLengthMismatch algorithm None) \/
  (exists spec, supported algorithm = Some spec /\
     (e = KeyLengthMismatch algorithm (Some (Spec.keyLength spec)) \/
      e = IVLengthMismatch algorithm (Some (Spec.ivLength spec)))).
Proof.
  destruct (supported algorithm) as [spec|] eqn:Hs.
  - rewrite (validate_supported _ _ _ _ Hs).
    destruct (negb (keyLength =? Spec.keyLength spec));
      [intros E; injection E as <-; right; right; exists spec; tauto|].
    destruct (negb (ivLength =? Spec.ivLength spec));
      [intros E; injection E as <-; right; right; exists spec; tauto|discriminate].
  - rewrite (validate_unknown _ _ _ Hs).
    destruct (existsb (streq algorithm) Object_prototype) eqn:Hp.
    + intros E; injection E as <-. right. left. split; [|reflexivity].
      apply existsb_exists in Hp as (name & Hin & Heq).
      apply streq_eq in Heq. now subst name.
    + intros E; injection E as <-. now left.
Qed.

(** No message of validation holds the code that the handler looks for. *)
Lemma validate_throws_report (algorithm : jsstring) (keyLength ivLength : Z) (e : error) :
  validateAlgorithmParameters algorithm keyLength ivLength = Throw e ->
  includes (String_of_error e) (js "1C800064") = false /\
  forall c, e <> Crypto c.
Proof.
  intros H. apply validate_throws_named in H.
  destruct H as [->|[(Hin & ->)|(spec & Hs & He)] ].
  - split; [reflexivity|discriminate].
  - split; [|discriminate].
    cbv [Object_prototype map] in Hin.
    repeat (destruct Hin as [<-|Hin]; [vm_compute; reflexivity|]). destruct Hin.
  - assert (Hc : (CBC algorithm \/ GCM algorithm))
      by (apply supported_iff; now exists spec).
    unfold CBC, GCM in Hc.
    destruct Hc as [ [-> | [-> | ->] ] | [-> | [-> | ->] ] ];
      injection Hs as <-; destruct He as [-> | ->];
      (split; [vm_compute; reflexivity|discriminate]).
Qed.

(** ** Running computations *)

Lemma bind_check_ok {A B} (r : result error A) (a : A) (k : A -> M B) (w : World) :
  r = Ok a -> bind (check r) k w = k a w.
Proof. now intros ->. Qed.

Lemma bind_check_throw {A B} (r : result error A) (e : error) (k : A -> M B)
    (w : World) :
  r = Throw e -> bind (check r) k w = (Throw e, w).
Proof. now intros ->. Qed.

Lemma bind_invoke_ok {A B} (c : call) (r : result crypto_error A) (a : A)
    (k : A -> M B) (w : World) :
  r = Ok a -> bind (invoke c r) k w = k a (record c w).
Proof. now intros ->. Qed.


Lemma randomBytes_ok (size : Z) (w : World) :
  0 <= size <= INT32_MAX ->
  randomBytes size w =
    (Ok (map (entropy w) (seq (drawn w) (Z.to_nat size))),
     draw (Z.to_nat size) (record (RandomBytes size) w)).
Proof.
  intros H. unfold randomBytes.
  destruct (Z.leb_spec 0 size); [|lia].
  destruct (Z.leb_spec size INT32_MAX); [|lia]. reflexivity.
Qed.

Lemma bind_randomBytes_ok {B} (size : Z) (k : bytes -> M B) (w : World) :
  0 <= size <= INT32_MAX ->
  bind (randomBytes size) k w =
    k (map (entropy w) (seq (drawn w) (Z.to_nat size)))
      (draw (Z.to_nat size) (record (RandomBytes size) w)).
Proof. intros H. unfold bind. now rewrite randomBytes_ok. Qed.

Lemma randomBytes_refused (size : Z) (w : World) :
  ~ 0 <= size <= INT32_MAX ->
  randomBytes size w = (Throw (Crypto OutOfRange), record (RandomBytes size) w).
Proof.
  intros H. unfold randomBytes.
  destruct (Z.leb_spec 0 size); destruct (Z.leb_spec size INT32_MAX);
    cbn [andb]; try reflexivity; lia.
Qed.

Lemma random_length (f : nat -> byte) (start : nat) (size : Z) :
  0 <= size -> Buffer_length (map f (seq start (Z.to_nat size))) = size.
Proof.
  intros H. unfold Buffer_length. rewrite length_map, length_seq. lia.
Qed.

(** ** PBKDF2 with HMAC-SHA-256 *)

Module KdfFacts.

(** The published test vectors: FIPS 180-4 for SHA-256, RFC 4231 for HMAC,
    RFC 7914 for PBKDF2. *)
Example sha256_abc :
  toString_hex (SHA256.hash (utf8_encode (js "abc")))
  = js "ba7816bf8f01cfea414140de5dae2223b00361a396177a9cb410ff61f20015ad".
Proof. vm_compute. reflexivity. Qed.

Example sha256_two_blocks :
  toString_hex
    (SHA256.hash
       (utf8_encode (js "abcdbcdecdefdefgefghfghighijhijkijkljklmklmnlmnomnopnopq")))
  = js "248d6a61d20638b8e5c026930c3e6039a33ce45964ff2167f6ecedd419db06c1".
Proof. vm_compute. reflexivity. Qed.

Example hmac_sha256_jefe :
  toString_hex
    (HMAC.hmac (utf8_encode (js "Jefe")) (utf8_encode (js "what do ya want for nothing?")))
  = js "5bdcc146bf60754e6a042426089575c75a003f089d2739839dec58b964ec3843".
Proof. vm_compute. reflexivity. Qed.

Example pbkdf2_password_salt_2 :
  toString_hex (PBKDF2.derive (utf8_encode (js "password")) (utf8_encode (js "salt")) 2 32)
  = js "ae4d0c95af6b46d32d0adff928f06dd02a303f8ef3c251dfd6e2d85a95474c43".
Proof. vm_compute. reflexivity. Qed.








(** HMAC fills a short key with zero bytes: a zero byte more at its end
    changes nothing. *)
Lemma prepare_zero (key : bytes) :
  (List.length key < HMAC.block_size)%nat ->
  HMAC.prepare (key ++ [x00]) = HMAC.prepare key.
Proof.
  unfold HMAC.prepare, HMAC.block_size. intros H. rewrite length_app.
  cbn [List.length].
  destruct (Nat.ltb_spec 64 (List.length key + 1)); [lia|].
  destruct (Nat.ltb_spec 64 (List.length key)); [lia|].
  rewrite length_app. cbn [List.length]. rewrite <- app_assoc. f_equal.
  replace (64 - List.length key)%nat with (S (64 - (List.length key + 1)))%nat by lia.
  reflexivity.
Qed.

Lemma hmac_zero (key msg : bytes) :
  (List.length key < HMAC.block_size)%nat ->
  HMAC.hmac (key ++ [x00]) msg = HMAC.hmac key msg.
Proof. intros H. unfold HMAC.hmac. now rewrite prepare_zero. Qed.

Lemma iterate_zero (n : nat) (key u acc : bytes) :
  (List.length key < HMAC.block_size)%nat ->
  PBKDF2.iterate n (key ++ [x00]) u acc = PBKDF2.iterate n key u acc.
Proof.
  intros H. revert u acc. induction n as [|n IH]; intros u acc; [reflexivity|].
  cbn [PBKDF2.iterate]. now rewrite hmac_zero, IH.
Qed.

Lemma derive_zero (key salt : bytes) (c dkLen : Z) :
  (List.length key < HMAC.block_size)%nat ->
  PBKDF2.derive (key ++ [x00]) salt c dkLen = PBKDF2.derive key salt c dkLen.
Proof.
  intros H. unfold PBKDF2.derive. f_equal. apply flat_map_ext. intros i.
  unfold PBKDF2.F. now rewrite hmac_zero, iterate_zero.
Qed.

Lemma utf8_encode_nul_bounded (n : nat) (s : jsstring) :
  (List.length s <= n)%nat -> utf8_encode (s ++ [0]) = utf8_encode s ++ [x00].
Proof.
  revert s. induction n as [|n IH]; intros [|u rest] Hlen; try reflexivity.
  - simpl in Hlen. lia.
  - simpl in Hlen. cbn [app utf8_encode].
    assert (IHrest : utf8_encode (rest ++ [0]) = utf8_encode rest ++ [x00])
      by (apply IH; lia).
    destruct (is_high_surrogate u).
    + destruct rest as [|l rest']; [reflexivity|].
      cbn [app]. destruct (is_low_surrogate l).
      * rewrite <- app_assoc. f_equal. apply IH. simpl in Hlen. lia.
      * rewrite <- app_assoc. f_equal. exact IHrest.
    + destruct (is_low_surrogate u); rewrite <- app_assoc; f_equal; exact IHrest.
Qed.

(** A password and the same password followed by U+0000 derive the same
    key. *)
Lemma pbkdf2Sync_nul (password : jsstring) (salt : bytes) (iterations keylen : Z)
    (digest : jsstring) :
  (List.length (utf8_encode password) < HMAC.block_size)%nat ->
  Ref.pbkdf2Sync (password ++ [0]) salt iterations keylen digest
  = Ref.pbkdf2Sync password salt iterations keylen digest.
Proof.
  intros H. unfold Ref.pbkdf2Sync.
  rewrite (utf8_encode_nul_bounded (List.length password)) by lia.
  now rewrite derive_zero.
Qed.

End KdfFacts.

(** ** The reference implementation keeps the contract *)

Module RefFacts.









End RefFacts.

Tactic Notation "ref_simpl" :=
  cbn [Ref.c_gcm Ref.c_out Ref.c_key Ref.c_iv Ref.c_data Ref.d_gcm Ref.d_tag
       Ref.d_key Ref.d_iv Ref.d_data Ref.cipher_update Ref.cipher_final
       Ref.getAuthTag Ref.decipher_update app].
Tactic Notation "ref_simpl" "in" hyp(H) :=
  cbn [Ref.c_gcm Ref.c_out Ref.c_key Ref.c_iv Ref.c_data Ref.d_gcm Ref.d_tag
       Ref.d_key Ref.d_iv Ref.d_data Ref.cipher_update Ref.cipher_final
       Ref.getAuthTag Ref.decipher_update app] in H.


(** ** decrypt, once the token is split *)

Section Parsed.

Context {L : CryptoLib}.

Lemma decrypt_fields (password encryptedText algorithm : jsstring)
    (iterations keyLength : Z) (f0 f1 f2 : jsstring) (rest : list jsstring) :
  split colon encryptedText = f0 :: f1 :: f2 :: rest ->
  decrypt password encryptedText algorithm iterations keyLength =
  decrypt_parsed password (Buffer_from_hex f0) (Buffer_from_hex f1) f2
    (match rest with [] => None | f3 :: _ => Some (Buffer_from_hex f3) end)
    algorithm iterations keyLength.
Proof.
  intros H. unfold decrypt. rewrite H. destruct rest; reflexivity.
Qed.

Lemma decrypt_short (password encryptedText algorithm : jsstring)
    (iterations keyLength : Z) (w : World) :
  (List.length (split colon encryptedText) < 3)%nat ->
  decrypt password encryptedText algorithm iterations keyLength w
  = (Throw MalformedToken, w).
Proof.
  intros H. unfold decrypt. apply Nat.ltb_lt in H. now rewrite H.
Qed.

(** Off the GCM path the tag is not looked at. *)
Lemma decrypt_parsed_tag_unused (password : jsstring) (salt iv : bytes)
    (encrypted : jsstring) (tag : option bytes) (algorithm : jsstring)
    (iterations keyLength : Z) :
  includes algorithm gcm = false ->
  decrypt_parsed password salt iv encrypted tag algorithm iterations keyLength =
  decrypt_parsed password salt iv encrypted None algorithm iterations keyLength.
Proof. intros H. unfold decrypt_parsed. now rewrite H. Qed.

(** What validation throws. *)
Lemma validate_throws (algorithm : jsstring) (keyLength ivLength : Z) (e : error) :
  validateAlgorithmParameters algorithm keyLength ivLength = Throw e ->
  e = InvalidAlgorithm \/
  (exists required, e = KeyLengthMismatch algorithm required) \/
  (exists required, e = IVLengthMismatch algorithm required).
Proof.
  unfold validateAlgorithmParameters.
  destruct (get_property algorithmSpecs algorithm) as [spec| |].
  - destruct (negb (keyLength =? Spec.keyLength spec));
      [intros E; injection E as <-; eauto|].
    destruct (negb (ivLength =? Spec.ivLength spec));
      [intros E; injection E as <-; eauto|discriminate].
  - intros E; injection E as <-; eauto.
  - intros E; injection E as <-; eauto.
Qed.

(** Once the token is split, a failure is one of validation, the missing
    tag, or an error of the crypto module. *)
Lemma decrypt_parsed_throws (password : jsstring) (salt iv : bytes)
    (encrypted : jsstring) (tag : option bytes) (algorithm : jsstring)
    (iterations keyLength : Z) (w w' : World) (e : error) :
  decrypt_parsed password salt iv encrypted tag algorithm iterations keyLength w
  = (Throw e, w') ->
  e = InvalidAlgorithm \/
  (exists required, e = KeyLengthMismatch algorithm required) \/
  (exists required, e = IVLengthMismatch algorithm required) \/
  e = MissingAuthTag \/
  (exists c, e = Crypto c).
Proof.
  unfold decrypt_parsed, bind, check, deriveKey, invoke, throw, ret, uncaught.
  destruct (validateAlgorithmParameters algorithm keyLength (Buffer_length iv))
    as [ [] |ev] eqn:Hv.
  2:{ intros E. injection E as <- _. apply validate_throws in Hv. tauto. }
  assert (Hthrown : forall (c : crypto_error) (w1 : World),
             (@Throw error jsstring (Crypto c), w1) = (Throw e, w') ->
             exists c', e = Crypto c')
    by (intros c w1 E; injection E as <- _; eauto).
  destruct (pbkdf2Sync password salt iterations keyLength sha256) as [key|c];
    cbn [uncaught]; [|eauto 10].
  destruct (includes algorithm gcm).
  - destruct (createDecipheriv algorithm key iv) as [d|c]; cbn [uncaught]; [|eauto 10].
    destruct tag as [t|]; [|intros E; injection E as <- _; tauto].
    destruct (setAuthTag d t) as [d0|c]; cbn [uncaught]; [|eauto 10].
    destruct (decipher_update d0 (Buffer_from_hex encrypted)) as [ [p1 d1]|c];
      cbn [uncaught]; [|eauto 10].
    destruct (decipher_final d1) as [ [p2 d2]|c]; cbn [uncaught];
      [discriminate|eauto 10].
  - destruct (createDecipheriv algorithm key iv) as [d|c]; cbn [uncaught]; [|eauto 10].
    destruct (decipher_update d (Buffer_from_hex encrypted)) as [ [p1 d1]|c];
      cbn [uncaught]; [|eauto 10].
    destruct (decipher_final d1) as [ [p2 d2]|c]; cbn [uncaught];
      [discriminate|eauto 10].
Qed.


(** [decrypt] reads the password only to derive the key. *)
Lemma decrypt_same_key (passwordA passwordB encryptedText algorithm : jsstring)
    (iterations keyLength : Z) (w : World) :
  (forall salt,
     pbkdf2Sync passwordB salt iterations keyLength sha256
     = pbkdf2Sync passwordA salt iterations keyLength sha256) ->
  decrypt passwordB encryptedText algorithm iterations keyLength w
  = decrypt passwordA encryptedText algorithm iterations keyLength w.
Proof.
  intros H. unfold decrypt, deriveKey. cbv zeta. now rewrite H.
Qed.

End Parsed.

(** ** Runs of encrypt and decrypt *)

Section Runs.

Context {L : CryptoLib}.

(** The outcomes of validation on every identifier that is not a name of
    [Object.prototype]: [InvalidAlgorithm] off the table, then the key
    length, then the IV length. *)
Lemma validate_outcomes (algorithm : jsstring) (keyLength ivLength : Z) :
  existsb (streq algorithm) Object_prototype = false ->
  match supported algorithm with
  | None => validateAlgorithmParameters algorithm keyLength ivLength = Throw InvalidAlgorithm
  | Some spec =>
      (keyLength <> Spec.keyLength spec ->
       validateAlgorithmParameters algorithm keyLength ivLength
       = Throw (KeyLengthMismatch algorithm (Some (Spec.keyLength spec)))) /\
      (keyLength = Spec.keyLength spec -> ivLength <> Spec.ivLength spec ->
       validateAlgorithmParameters algorithm keyLength ivLength
       = Throw (IVLengthMismatch algorithm (Some (Spec.ivLength spec)))) /\
      (keyLength = Spec.keyLength spec -> ivLength = Spec.ivLength spec ->
       validateAlgorithmParameters algorithm keyLength ivLength = Ok tt)
  end.
Proof.
  intros Hp. destruct (supported algorithm) as [spec|] eqn:E.
  - rewrite (validate_supported _ _ _ _ E).
    repeat split; intros;
      destruct (Z.eqb_spec keyLength (Spec.keyLength spec)); try lia;
      destruct (Z.eqb_spec ivLength (Spec.ivLength spec)); try lia; reflexivity.
  - rewrite (validate_unknown _ _ _ E). now rewrite Hp.
Qed.


Lemma CBC_supported (algorithm : jsstring) :
  CBC algorithm ->
  includes algorithm gcm = false /\
  exists spec, supported algorithm = Some spec /\ Spec.ivLength spec = 16.
Proof.
  unfold CBC. intros [-> | [-> | ->] ]; (split; [reflexivity|]);
    eexists; split; reflexivity.
Qed.

(** Inverting a successful run. *)

Lemma bind_ok_inv {A B} (m : M A) (k : A -> M B) (w w' : World) (b : B) :
  bind m k w = (Ok b, w') ->
  exists a w1, m w = (Ok a, w1) /\ k a w1 = (Ok b, w').
Proof.
  unfold bind. destruct (m w) as [ [a|e] w1]; [|discriminate].
  intros H. now exists a, w1.
Qed.

Lemma randomBytes_ok_inv (size : Z) (w w1 : World) (b : bytes) :
  randomBytes size w = (Ok b, w1) ->
  0 <= size <= INT32_MAX /\
  b = map (entropy w) (seq (drawn w) (Z.to_nat size)) /\
  w1 = draw (Z.to_nat size) (record (RandomBytes size) w).
Proof.
  unfold randomBytes.
  destruct (Z.leb_spec 0 size); [|discriminate].
  destruct (Z.leb_spec size INT32_MAX); [|discriminate].
  cbn [andb]. intros E. injection E as <- <-. repeat split; lia.
Qed.

Lemma check_ok_inv {A} (r : result error A) (w w1 : World) (a : A) :
  check r w = (Ok a, w1) -> r = Ok a /\ w1 = w.
Proof. unfold check. intros H. injection H as -> <-. now split. Qed.

Lemma invoke_ok_inv {A} (c : call) (r : result crypto_error A) (w w1 : World) (a : A) :
  invoke c r w = (Ok a, w1) -> r = Ok a /\ w1 = record c w.
Proof.
  unfold invoke. destruct r as [a'|e]; [|discriminate].
  intros H. injection H as -> <-. now split.
Qed.

Lemma encrypt_ok_inv (password text : jsstring) (saltLength ivLength : Z)
    (algorithm : jsstring) (iterations keyLength : Z) (w w' : World) (token : jsstring) :
  encrypt password text saltLength ivLength algorithm iterations keyLength w
  = (Ok token, w') ->
  exists spec key out1 out2 c2,
    encrypt_steps password text saltLength ivLength algorithm iterations keyLength w
      spec key out1 out2 c2 /\
    let salt := toString_hex (salt_drawn w saltLength) in
    let iv := toString_hex (iv_drawn w saltLength ivLength) in
    let encrypted := toString_hex out1 ++ toString_hex out2 in
    if includes algorithm gcm then
      exists tag, getAuthTag c2 = Ok tag /\
        token = join2 salt (join2 iv (join2 encrypted (toString_hex tag)))
    else token = join2 salt (join2 iv encrypted).
Proof.
  unfold encrypt. destruct text as [|u text]; [discriminate|].
  intros H.
  apply bind_ok_inv in H; destruct H as (salt & w1 & Hsalt & H).
  apply randomBytes_ok_inv in Hsalt as (Hsl & -> & ->).
  apply bind_ok_inv in H; destruct H as (iv & w2 & Hiv & H).
  apply randomBytes_ok_inv in Hiv as (Hil & -> & ->).
  apply bind_ok_inv in H; destruct H as ([] & w3 & Hv & H).
  apply check_ok_inv in Hv as (Hv & ->).
  apply validate_ok_inv in Hv as (spec & Hs & Hk & Hi).
  apply bind_ok_inv in H; destruct H as (key & w4 & Hkey & H).
  apply invoke_ok_inv in Hkey as (Hkey & ->).
  apply bind_ok_inv in H; destruct H as (cipher & w5 & Hc & H).
  apply invoke_ok_inv in Hc as (Hc & ->).
  exists spec, key.
  destruct (includes algorithm gcm).
  - apply bind_ok_inv in H; destruct H as ([out1 c1] & w6 & Hu & H).
    apply invoke_ok_inv in Hu as (Hu & ->).
    apply bind_ok_inv in H; destruct H as ([out2 c2] & w7 & Hf & H).
    apply invoke_ok_inv in Hf as (Hf & ->).
    apply bind_ok_inv in H; destruct H as (tag & w8 & Ht & H).
    apply invoke_ok_inv in Ht as (Ht & ->).
    injection H as <- <-.
    exists out1, out2, c2. split.
    + repeat split; try assumption; try lia; try discriminate.
      exists cipher, c1. repeat split; assumption.
    + exists tag. split; [assumption|reflexivity].
  - apply bind_ok_inv in H; destruct H as ([out1 c1] & w6 & Hu & H).
    apply invoke_ok_inv in Hu as (Hu & ->).
    apply bind_ok_inv in H; destruct H as ([out2 c2] & w7 & Hf & H).
    apply invoke_ok_inv in Hf as (Hf & ->).
    injection H as <- <-.
    exists out1, out2, c2. split.
    + repeat split; try assumption; try lia; try discriminate.
      exists cipher, c1. repeat split; assumption.
    + reflexivity.
Qed.

Lemma split_token3 (a b c : bytes) :
  split colon (join2 (toString_hex a) (join2 (toString_hex b) (toString_hex c)))
  = [toString_hex a; toString_hex b; toString_hex c].
Proof.
  unfold join2. rewrite !split_app by apply toString_hex_no_colon.
  now rewrite split_without by apply toString_hex_no_colon.
Qed.

Lemma split_token4 (a b c d : bytes) :
  split colon (join2 (toString_hex a) (join2 (toString_hex b)
                 (join2 (toString_hex c) (toString_hex d))))
  = [toString_hex a; toString_hex b; toString_hex c; toString_hex d].
Proof.
  unfold join2. rewrite !split_app by apply toString_hex_no_colon.
  now rewrite split_without by apply toString_hex_no_colon.
Qed.

(** The round trip, for any plaintext: what comes back is the plaintext
    as UTF-8 carried it. *)
Lemma encrypt_decrypt {HL : CryptoLaws L} (password text : jsstring)
    (saltLength ivLength : Z) (algorithm : jsstring) (iterations keyLength : Z)
    (spec : Spec.t) (w : World) :
  supported algorithm = Some spec ->
  text <> [] ->
  keyLength = Spec.keyLength spec ->
  ivLength = Spec.ivLength spec ->
  0 <= saltLength <= INT32_MAX ->
  1 <= iterations <= INT32_MAX ->
  exists token w1,
    encrypt password text saltLength ivLength algorithm iterations keyLength w
    = (Ok token, w1) /\
    forall w2, exists w3,
      decrypt password token algorithm iterations keyLength w2
      = (Ok (utf8_decode (utf8_encode text)), w3).
Proof.
  intros Hs Ht -> -> Hsl Hit.
  destruct (supported_cases _ _ Hs) as [Hmode Hkl].
  assert (Hk : 0 <= Spec.keyLength spec <= INT32_MAX)
    by (unfold INT32_MAX; cbn; lia).
  assert (Hil : 0 <= Spec.ivLength spec <= INT32_MAX)
    by (unfold INT32_MAX; cbn; lia).
  set (salt := salt_drawn w saltLength).
  set (iv := iv_drawn w saltLength (Spec.ivLength spec)).
  destruct (pbkdf2Sync_returns password salt iterations _ Hit Hk)
    as (key & Hkey & Hlen).
  assert (Hivlen : Buffer_length iv = Spec.ivLength spec)
    by (apply random_length; lia).
  destruct (createCipheriv_returns algorithm spec key iv Hs Hlen Hivlen)
    as (cipher & Hc).
  destruct (cipher_returns algorithm spec key iv cipher (utf8_encode text) Hs Hc)
    as (out1 & c1 & out2 & c2 & Hu & Hf & Htag).
  destruct text as [|u text]; [contradiction|].
  unfold encrypt.
  rewrite bind_randomBytes_ok by assumption.
  rewrite bind_randomBytes_ok by assumption.
  rewrite bind_check_ok with (a := tt) by now apply validate_ok.
  unfold deriveKey at 1. cbn [entropy drawn draw record].
  fold salt. fold iv.
  rewrite (bind_invoke_ok _ _ _ _ _ Hkey).
  rewrite (bind_invoke_ok _ _ _ _ _ Hc).
  destruct (includes algorithm gcm) eqn:Hg.
  - destruct (Htag eq_refl) as (tag & Hgt).
    rewrite (bind_invoke_ok _ _ _ _ _ Hu). cbv beta iota.
    rewrite (bind_invoke_ok _ _ _ _ _ Hf). cbv beta iota zeta.
    rewrite (bind_invoke_ok _ _ _ _ _ Hgt).
    exists (join2 (toString_hex salt) (join2 (toString_hex iv)
              (join2 (toString_hex out1 ++ toString_hex out2) (toString_hex tag)))).
    eexists. split; [reflexivity|].
    intros w2. rewrite <- toString_hex_app.
    rewrite (decrypt_fields _ _ _ _ _ _ _ _ _ (split_token4 _ _ _ _)).
    unfold decrypt_parsed. rewrite !Buffer_from_hex_toString. rewrite Hivlen.
    rewrite bind_check_ok with (a := tt) by now apply validate_ok.
    unfold deriveKey. rewrite (bind_invoke_ok _ _ _ _ _ Hkey). rewrite Hg.
    destruct (decipher_inverts_gcm algorithm spec key iv cipher _ out1 c1 out2 c2
                tag Hs Hg Hc Hu Hf Hgt)
      as (decipher & d0 & p1 & d1 & p2 & d2 & Hd & Hst & Hdu & Hdf & Hp).
    rewrite (bind_invoke_ok _ _ _ _ _ Hd).
    rewrite (bind_invoke_ok _ _ _ _ _ Hst).
    rewrite (bind_invoke_ok _ _ _ _ _ Hdu). cbv beta iota.
    rewrite (bind_invoke_ok _ _ _ _ _ Hdf). cbv beta iota.
    rewrite Hp. eexists. reflexivity.
  - rewrite (bind_invoke_ok _ _ _ _ _ Hu). cbv beta iota.
    rewrite (bind_invoke_ok _ _ _ _ _ Hf). cbv beta iota zeta.
    exists (join2 (toString_hex salt) (join2 (toString_hex iv)
              (toString_hex out1 ++ toString_hex out2))).
    eexists. split; [reflexivity|].
    intros w2. rewrite <- toString_hex_app.
    rewrite (decrypt_fields _ _ _ _ _ _ _ _ _ (split_token3 _ _ _)).
    unfold decrypt_parsed. rewrite !Buffer_from_hex_toString. rewrite Hivlen.
    rewrite bind_check_ok with (a := tt) by now apply validate_ok.
    unfold deriveKey. rewrite (bind_invoke_ok _ _ _ _ _ Hkey). rewrite Hg.
    destruct (decipher_inverts_cbc algorithm spec key iv cipher _ out1 c1 out2 c2
                Hs Hg Hc Hu Hf)
      as (decipher & p1 & d1 & p2 & d2 & Hd & Hdu & Hdf & Hp).
    rewrite (bind_invoke_ok _ _ _ _ _ Hd).
    rewrite (bind_invoke_ok _ _ _ _ _ Hdu). cbv beta iota.
    rewrite (bind_invoke_ok _ _ _ _ _ Hdf). cbv beta iota.
    rewrite Hp. eexists. reflexivity.
Qed.

(** A password that derives the keys of another decrypts its tokens. *)
Lemma same_key_roundtrip {HL : CryptoLaws L} (passwordA passwordB text : jsstring)
    (saltLength ivLength : Z) (algorithm : jsstring) (iterations keyLength : Z)
    (spec : Spec.t) (w : World) :
  (forall salt,
     pbkdf2Sync passwordB salt iterations keyLength sha256
     = pbkdf2Sync passwordA salt iterations keyLength sha256) ->
  supported algorithm = Some spec ->
  text <> [] ->
  isWellFormed text = true ->
  keyLength = Spec.keyLength spec ->
  ivLength = Spec.ivLength spec ->
  0 <= saltLength <= INT32_MAX ->
  1 <= iterations <= INT32_MAX ->
  exists token w1,
    encrypt passwordA text saltLength ivLength algorithm iterations keyLength w
    = (Ok token, w1) /\
    forall w2, exists w3,
      decrypt passwordB token algorithm iterations keyLength w2 = (Ok text, w3).
Proof.
  intros Hsame Hs Ht Hwf Hk Hi Hsl Hit.
  destruct (encrypt_decrypt passwordA text saltLength ivLength algorithm
              iterations keyLength spec w Hs Ht Hk Hi Hsl Hit)
    as (token & w1 & He & Hd).
  exists token, w1. split; [exact He|]. intros w2.
  rewrite (decrypt_same_key passwordA passwordB _ _ _ _ _ Hsame).
  rewrite (utf8_roundtrip_wellformed text Hwf) in Hd. apply Hd.
Qed.


(** What a run that fails has thrown, and what a run that returns has
    decoded. *)

Lemma decrypt_throws (password encryptedText algorithm : jsstring)
    (iterations keyLength : Z) (w w' : World) (e : error) :
  decrypt password encryptedText algorithm iterations keyLength w = (Throw e, w') ->
  e = MalformedToken \/ e = MissingAuthTag \/
  (exists ivLength,
     validateAlgorithmParameters algorithm keyLength ivLength = Throw e) \/
  (exists c, e = Crypto c).
Proof.
  destruct (Nat.ltb_spec (List.length (split colon encryptedText)) 3) as [Hlen|Hlen].
  { rewrite decrypt_short by assumption. intros E. injection E as <-. now left. }
  destruct (split colon encryptedText) as [|f0 [|f1 [|f2 rest]]] eqn:Hf;
    simpl in Hlen; try lia.
  rewrite (decrypt_fields _ _ _ _ _ _ _ _ _ Hf).
  unfold decrypt_parsed, bind, check, deriveKey, invoke, throw, ret, uncaught.
  destruct (validateAlgorithmParameters algorithm keyLength
              (Buffer_length (Buffer_from_hex f1))) as [ [] |ev] eqn:Hv.
  2:{ intros E. injection E as <- _. right. right. left. eauto. }
  assert (Hthrown : forall (c : crypto_error) (w1 : World),
             (@Throw error jsstring (Crypto c), w1) = (Throw e, w') ->
             exists c', e = Crypto c')
    by (intros c w1 E; injection E as <- _; eauto).
  destruct (pbkdf2Sync password (Buffer_from_hex f0) iterations keyLength sha256)
    as [key|c]; [|eauto 10].
  destruct (includes algorithm gcm).
  - destruct (createDecipheriv algorithm key (Buffer_from_hex f1)) as [d|c];
      [|eauto 10].
    destruct rest as [|f3 rest]; [intros E; injection E as <- _; tauto|].
    destruct (setAuthTag d (Buffer_from_hex f3)) as [d0|c]; [|eauto 10].
    destruct (decipher_update d0 (Buffer_from_hex f2)) as [ [p1 d1]|c]; [|eauto 10].
    destruct (decipher_final d1) as [ [p2 d2]|c]; [discriminate|eauto 10].
  - destruct (createDecipheriv algorithm key (Buffer_from_hex f1)) as [d|c];
      [|eauto 10].
    destruct (decipher_update d (Buffer_from_hex f2)) as [ [p1 d1]|c]; [|eauto 10].
    destruct (decipher_final d1) as [ [p2 d2]|c]; [discriminate|eauto 10].
Qed.

Lemma decrypt_ok_inv (password encryptedText algorithm : jsstring)
    (iterations keyLength : Z) (w w' : World) (text : jsstring) :
  decrypt password encryptedText algorithm iterations keyLength w = (Ok text, w') ->
  exists plain : bytes, text = utf8_decode plain.
Proof.
  destruct (Nat.ltb_spec (List.length (split colon encryptedText)) 3) as [Hlen|Hlen].
  { now rewrite decrypt_short by assumption. }
  destruct (split colon encryptedText) as [|f0 [|f1 [|f2 rest]]] eqn:Hf;
    simpl in Hlen; try lia.
  rewrite (decrypt_fields _ _ _ _ _ _ _ _ _ Hf).
  unfold decrypt_parsed, bind, check, deriveKey, invoke, throw, ret, uncaught.
  destruct (validateAlgorithmParameters algorithm keyLength
              (Buffer_length (Buffer_from_hex f1))) as [ [] |ev]; [|discriminate].
  destruct (pbkdf2Sync password (Buffer_from_hex f0) iterations keyLength sha256)
    as [key|c]; [|discriminate].
  destruct (includes algorithm gcm).
  - destruct (createDecipheriv algorithm key (Buffer_from_hex f1)) as [d|c];
      [|discriminate].
    destruct rest as [|f3 rest]; [discriminate|].
    destruct (setAuthTag d (Buffer_from_hex f3)) as [d0|c]; [|discriminate].
    destruct (decipher_update d0 (Buffer_from_hex f2)) as [ [p1 d1]|c];
      [|discriminate].
    destruct (decipher_final d1) as [ [p2 d2]|c]; [|discriminate].
    intros E. injection E as <- _. eauto.
  - destruct (createDecipheriv algorithm key (Buffer_from_hex f1)) as [d|c];
      [|discriminate].
    destruct (decipher_update d (Buffer_from_hex f2)) as [ [p1 d1]|c];
      [|discriminate].
    destruct (decipher_final d1) as [ [p2 d2]|c]; [|discriminate].
    intros E. injection E as <- _. eauto.
Qed.

Lemma encrypt_throws (password text : jsstring) (saltLength ivLength : Z)
    (algorithm : jsstring) (iterations keyLength : Z) (w w' : World) (e : error) :
  text <> [] ->
  encrypt password text saltLength ivLength algorithm iterations keyLength w
  = (Throw e, w') ->
  validateAlgorithmParameters algorithm keyLength ivLength = Throw e \/
  exists c, e = Crypto c.
Proof.
  intros Ht. destruct text as [|u text]; [contradiction|].
  unfold encrypt, bind, randomBytes, check, deriveKey, invoke, throw, ret, uncaught.
  assert (Hthrown : forall (c : crypto_error) (w1 : World),
             (@Throw error jsstring (Crypto c), w1) = (Throw e, w') ->
             validateAlgorithmParameters algorithm keyLength ivLength = Throw e \/
             exists c', e = Crypto c')
    by (intros c w1 E; injection E as <- _; eauto).
  destruct ((0 <=? saltLength) && (saltLength <=? INT32_MAX)); [|eauto].
  destruct ((0 <=? ivLength) && (ivLength <=? INT32_MAX)); [|eauto].
  destruct (validateAlgorithmParameters algorithm keyLength ivLength) as [ [] |ev].
  2:{ intros E. injection E as <- _. now left. }
  destruct (pbkdf2Sync password _ iterations keyLength sha256) as [key|c]; [|eauto].
  destruct (createCipheriv algorithm key _) as [cipher|c]; [|eauto].
  destruct (includes algorithm gcm).
  - destruct (cipher_update cipher _) as [ [out1 c1]|c]; [|eauto].
    destruct (cipher_final c1) as [ [out2 c2]|c]; [|eauto].
    destruct (getAuthTag c2) as [tag|c]; [discriminate|eauto].
  - destruct (cipher_update cipher _) as [ [out1 c1]|c]; [|eauto].
    destruct (cipher_final c1) as [ [out2 c2]|c]; [discriminate|eauto].
Qed.

End Runs.

(** ** The command line *)

(** White space. *)

Lemma trimStart_blank (s : jsstring) :
  trimStart s = [] <-> forallb isWhiteSpace s = true.
Proof.
  induction s as [|c s IH]; [now split|].
  cbn [trimStart forallb]. destruct (isWhiteSpace c); cbn [andb]; [exact IH|].
  split; discriminate.
Qed.

Lemma trimStart_head (s : jsstring) (c : codeunit) (rest : jsstring) :
  trimStart s = c :: rest -> isWhiteSpace c = false.
Proof.
  induction s as [|x s IH]; [discriminate|].
  cbn [trimStart]. destruct (isWhiteSpace x) eqn:E; [exact IH|].
  intros H. injection H as -> _. exact E.
Qed.

Lemma trimStart_app_blank (ws s : jsstring) :
  forallb isWhiteSpace ws = true -> trimStart (ws ++ s) = trimStart s.
Proof.
  induction ws as [|c ws IH]; [reflexivity|].
  cbn [forallb app trimStart]. intros H. apply andb_true_iff in H as [-> H]. auto.
Qed.

Lemma forallb_rev {A} (f : A -> bool) (l : list A) :
  forallb f (rev l) = forallb f l.
Proof.
  induction l as [|x l IH]; [reflexivity|].
  cbn [rev forallb]. rewrite forallb_app, IH. cbn [forallb].
  rewrite andb_true_r. apply andb_comm.
Qed.

Lemma trim_blank (s : jsstring) :
  trim s = [] <-> forallb isWhiteSpace s = true.
Proof.
  unfold trim, trimEnd. split.
  - intros H. apply (f_equal (@rev codeunit)) in H. rewrite rev_involutive in H.
    cbn [rev] in H. apply trimStart_blank in H. rewrite forallb_rev in H.
    destruct (trimStart s) as [|c rest] eqn:E; [now apply trimStart_blank|].
    apply trimStart_head in E. cbn [forallb] in H. rewrite E in H. discriminate.
  - intros H. apply trimStart_blank in H. now rewrite H.
Qed.

(** [parseInt]. *)

Lemma isDigit_value (c : codeunit) :
  isDigit c = true -> digit_value c = Some (c - 48) /\ 0 <= c - 48 < 10.
Proof.
  unfold isDigit, digit_value. intros H. rewrite H.
  apply andb_true_iff in H as [H1 H2]. apply Z.leb_le in H1, H2.
  split; [reflexivity|lia].
Qed.

Lemma isDigit_not_blank (c : codeunit) :
  isDigit c = true -> isWhiteSpace c = false /\ c <> 43 /\ c <> 45.
Proof.
  unfold isDigit, isWhiteSpace. intros H.
  apply andb_true_iff in H as [H1 H2]. apply Z.leb_le in H1, H2.
  split; [|lia]. zdecide; reflexivity.
Qed.

Lemma not_digit_stops (rest : jsstring) :
  match rest with c :: _ => isDigit c = false | [] => True end ->
  leading_digits 10 rest = [].
Proof.
  destruct rest as [|c rest]; [reflexivity|]. cbn [leading_digits].
  unfold isDigit, digit_value. intros H.
  destruct (Z.leb_spec 48 c); destruct (Z.leb_spec c 57); cbn [andb] in *;
    try discriminate.
  all: destruct (Z.leb_spec 97 c); destruct (Z.leb_spec c 122); cbn [andb];
    try (destruct (Z.ltb_spec (c - 87) 10); [lia|reflexivity]).
  all: destruct (Z.leb_spec 65 c); destruct (Z.leb_spec c 90); cbn [andb];
    try (destruct (Z.ltb_spec (c - 55) 10); [lia|reflexivity]); reflexivity.
Qed.

Lemma leading_digits_app (ds rest : jsstring) :
  forallb isDigit ds = true -> leading_digits 10 rest = [] ->
  leading_digits 10 (ds ++ rest) = map (fun c => c - 48) ds.
Proof.
  intros Hd Hr. induction ds as [|c ds IH]; [exact Hr|].
  cbn [forallb] in Hd. apply andb_true_iff in Hd as [Hc Hd].
  cbn [app leading_digits map]. destruct (isDigit_value c Hc) as [-> Hv].
  destruct (Z.ltb_spec (c - 48) 10); [|lia]. now rewrite IH.
Qed.

(** With the radix 10 no prefix is looked for. *)
Lemma parseInt_10 (s : jsstring) :
  parseInt s 10 =
  match leading_digits 10
          (match trimStart s with
           | c :: rest => if (c =? 43) || (c =? 45) then rest else trimStart s
           | [] => []
           end) with
  | [] => None
  | ds => Some ((match trimStart s with
                 | c :: _ => if c =? 45 then -1 else 1
                 | [] => 1
                 end) * mathInt 10 ds)
  end.
Proof.
  unfold parseInt. change (ToInt32 10) with 10. cbv zeta.
  change (negb (10 =? 0) && ((10 <? 2) || (36 <? 10))) with false.
  change ((10 =? 0) || (10 =? 16)) with false.
  change (if 10 =? 0 then 10 else 10) with 10. cbv iota.
  destruct (trimStart s) as [|c r]; [reflexivity|]. cbv iota.
  destruct ((c =? 43) || (c =? 45)).
  - destruct r as [|a [|x r'] ]; reflexivity.
  - destruct r; reflexivity.
Qed.

(** A numeral in decimal, with nothing or something that is no digit
    after it, and a minus sign or none before it. *)
Lemma parseInt_numeral (ds rest : jsstring) :
  ds <> [] -> forallb isDigit ds = true -> leading_digits 10 rest = [] ->
  parseInt (ds ++ rest) 10 = Some (mathInt 10 (map (fun c => c - 48) ds)) /\
  parseInt (45 :: ds ++ rest) 10 = Some (- mathInt 10 (map (fun c => c - 48) ds)).
Proof.
  intros Hne Hd Hr. pose proof (leading_digits_app ds rest Hd Hr) as Hl.
  destruct ds as [|c ds]; [contradiction|].
  pose proof Hd as Hc. cbn [forallb] in Hc. apply andb_true_iff in Hc as [Hc _].
  destruct (isDigit_not_blank c Hc) as (Hw & Hplus & Hminus).
  rewrite !parseInt_10. split.
  - cbn [app trimStart]. rewrite Hw.
    destruct (Z.eqb_spec c 43); [lia|]. destruct (Z.eqb_spec c 45); [lia|].
    cbn [orb]. change (c :: ds ++ rest) with ((c :: ds) ++ rest).
    rewrite Hl. cbn [map]. now rewrite Z.mul_1_l.
  - cbn [trimStart]. change (isWhiteSpace 45) with false. cbv iota.
    change ((45 =? 43) || (45 =? 45)) with true.
    change (45 =? 45) with true. cbv iota. rewrite Hl. cbn [map]. f_equal; lia.
Qed.

Lemma parseInt_blank_prefix (ws s : jsstring) (radix : Z) :
  forallb isWhiteSpace ws = true -> parseInt (ws ++ s) radix = parseInt s radix.
Proof.
  intros H. unfold parseInt. now rewrite trimStart_app_blank.
Qed.

Lemma mathInt_snoc (radix : Z) (ds : list Z) (d : Z) :
  mathInt radix (ds ++ [d]) = mathInt radix ds * radix + d.
Proof. unfold mathInt. now rewrite fold_left_app. Qed.

Lemma mathInt_map_snoc {A} (radix : Z) (f : A -> Z) (l : list A) (x : A) :
  mathInt radix (map f (l ++ [x])) = mathInt radix (map f l) * radix + f x.
Proof. rewrite map_app. apply mathInt_snoc. Qed.

(** The digits that [String_of_number] writes. *)
Lemma digits_numeral (fuel : nat) :
  forall (n : Z) (acc : jsstring),
    0 <= n < 10 ^ Z.of_nat (S fuel) ->
    exists ds, digits (S fuel) n acc = ds ++ acc /\ ds <> [] /\
               forallb isDigit ds = true /\
               mathInt 10 (map (fun c => c - 48) ds) = n.
Proof.
  induction fuel as [|fuel IH]; intros n acc Hn;
    cbn [digits];
    (assert (Hd : isDigit (48 + n mod 10) = true)
      by (unfold isDigit; zdecide_div; reflexivity));
    destruct (Z.eqb_spec (n / 10) 0) as [E|E].
  1,3: exists [48 + n mod 10]; repeat split; try discriminate;
    [cbn [forallb]; now rewrite Hd|unfold mathInt; cbn [map fold_left]; zlia].
  - exfalso. change (10 ^ Z.of_nat 1) with 10 in Hn. zlia.
  - assert (Hq : 0 <= n / 10 < 10 ^ Z.of_nat (S fuel)).
    { rewrite (Nat2Z.inj_succ (S fuel)), Z.pow_succ_r in Hn by lia. zlia. }
    destruct (IH (n / 10) ((48 + n mod 10) :: acc) Hq) as (ds & Hds & Hne & Hall & Hv).
    cbn [digits] in Hds. rewrite Hds.
    exists (ds ++ [48 + n mod 10]). repeat split.
    + now rewrite <- app_assoc.
    + now destruct ds.
    + rewrite forallb_app, Hall. cbn [forallb]. now rewrite Hd.
    + rewrite mathInt_map_snoc, Hv. zlia.
Qed.

Lemma parseInt_String_of_number (n : Z) :
  parseInt (String_of_number n) 10 = Some n.
Proof.
  unfold String_of_number. destruct (Z.ltb_spec n 0).
  - destruct (Z.to_nat (- n)) as [|fuel] eqn:Ef; [lia|].
    destruct (digits_numeral fuel (- n) []) as (ds & -> & Hne & Hd & Hv).
    { split; [lia|]. rewrite <- Ef, Z2Nat.id by lia. apply Z.pow_gt_lin_r; lia. }
    rewrite app_nil_r.
    destruct (parseInt_numeral ds [] Hne Hd eq_refl) as [_ E].
    rewrite app_nil_r in E. rewrite E. f_equal. lia.
  - destruct (digits_numeral (Z.to_nat n) n []) as (ds & -> & Hne & Hd & Hv).
    { split; [lia|]. rewrite Nat2Z.inj_succ, Z2Nat.id by lia.
      pose proof (Z.pow_gt_lin_r 10 (Z.succ n)). lia. }
    rewrite app_nil_r.
    destruct (parseInt_numeral ds [] Hne Hd eq_refl) as [E _].
    rewrite app_nil_r in E. rewrite E. now f_equal.
Qed.

(** * The claims *)

Section Claims.

Context {L : CryptoLib}.


(** C2. With a supported algorithm and a key length other than the one it
    requires, both operations fail with [KeyLengthMismatch] before any key
    is derived or cipher built.  [encrypt] (given a plaintext and sizes
    that [randomBytes] accepts) has by then drawn salt and IV; [decrypt]
    (given a token of at least three fields) leaves the world untouched. *)
Theorem key_length_mismatch (password text encryptedText algorithm : jsstring)
    (saltLength ivLength iterations keyLength : Z) (spec : Spec.t) (w : World) :
  supported algorithm = Some spec ->
  keyLength <> Spec.keyLength spec ->
  (text <> [] -> 0 <= saltLength <= INT32_MAX -> 0 <= ivLength <= INT32_MAX ->
   exists w',
     encrypt password text saltLength ivLength algorithm iterations keyLength w
     = (Throw (KeyLengthMismatch algorithm (Some (Spec.keyLength spec))), w') /\
     calls w' = calls w ++ [RandomBytes saltLength; RandomBytes ivLength] /\
     drawn w' = (drawn w + Z.to_nat saltLength + Z.to_nat ivLength)%nat) /\
  ((3 <= List.length (split colon encryptedText))%nat ->
   decrypt password encryptedText algorithm iterations keyLength w
   = (Throw (KeyLengthMismatch algorithm (Some (Spec.keyLength spec))), w)).
Proof.
  intros Hs Hk.
  assert (Hv : forall ivl, validateAlgorithmParameters algorithm keyLength ivl
               = Throw (KeyLengthMismatch algorithm (Some (Spec.keyLength spec)))).
  { intros ivl. rewrite (validate_supported _ _ _ _ Hs).
    now destruct (Z.eqb_spec keyLength (Spec.keyLength spec)). }
  split.
  - intros Ht Hsalt Hiv. destruct text as [|u text]; [contradiction|].
    unfold encrypt. rewrite bind_randomBytes_ok by assumption.
    rewrite bind_randomBytes_ok by assumption.
    rewrite (bind_check_throw _ _ _ _ (Hv ivLength)).
    eexists. split; [reflexivity|]. cbn [calls drawn draw record].
    split; [now rewrite <- app_assoc|reflexivity].
  - intros Hlen.
    destruct (split colon encryptedText) as [|f0 [|f1 [|f2 rest]]] eqn:Hf;
      simpl in Hlen; try lia.
    rewrite (decrypt_fields _ _ _ _ _ _ _ _ _ Hf). unfold decrypt_parsed.
    now rewrite (bind_check_throw _ _ _ _ (Hv _)).
Qed.

(** C3. The identifier [constructor] is not one of the six, and validation
    does not fail with [InvalidAlgorithm] on it: the lookup in the table
    finds the member inherited from [Object.prototype], and the failure is
    the one of a key length that differs from an undefined one. *)
Theorem validate_inherited_name :
  supported (js "constructor") = None /\
  validateAlgorithmParameters (js "constructor") 32 16
  = Throw (KeyLengthMismatch (js "constructor") None) /\
  message (KeyLengthMismatch (js "constructor") None)
  = js "constructor requires a undefined-byte key length.".
Proof. repeat split; reflexivity. Qed.


(** C5. The token a successful [encrypt] returns splits at the colons into
    the hexadecimal forms, in lower case, of the salt and the IV it drew,
    of the ciphertext, and, exactly under a GCM algorithm, of the
    authentication tag: three fields for CBC, four for GCM. *)
Theorem encrypt_token_format (password text : jsstring) (saltLength ivLength : Z)
    (algorithm : jsstring) (iterations keyLength : Z) (w w' : World) (token : jsstring) :
  encrypt password text saltLength ivLength algorithm iterations keyLength w
  = (Ok token, w') ->
  exists spec key out1 out2 c2,
    encrypt_steps password text saltLength ivLength algorithm iterations keyLength w
      spec key out1 out2 c2 /\
    let salt := salt_drawn w saltLength in
    let iv := iv_drawn w saltLength ivLength in
    let ciphertext := out1 ++ out2 in
    ((CBC algorithm /\
      split colon token
      = [toString_hex salt; toString_hex iv; toString_hex ciphertext]) \/
     (GCM algorithm /\
      exists tag, getAuthTag c2 = Ok tag /\
        split colon token
        = [toString_hex salt; toString_hex iv; toString_hex ciphertext;
           toString_hex tag])) /\
    Forall (fun field => forallb is_lower_hex field = true) (split colon token).
Proof.
  intros H. apply encrypt_ok_inv in H.
  destruct H as (spec & key & out1 & out2 & c2 & Hsteps & Htok).
  exists spec, key, out1, out2, c2. split; [exact Hsteps|].
  destruct Hsteps as (_ & _ & _ & Hs & _).
  cbv zeta in *. rewrite <- toString_hex_app in Htok.
  destruct (supported_cases _ _ Hs) as [ [(Hc & Hg & _)|(Hc & Hg & _)] _];
    rewrite Hg in Htok.
  - subst token. rewrite split_token3. split; [left; now split|].
    repeat constructor; apply toString_hex_lower.
  - destruct Htok as (tag & Ht & ->). rewrite split_token4.
    split; [right; split; [assumption|now exists tag]|].
    repeat constructor; apply toString_hex_lower.
Qed.


(** C7. [encrypt] called with the empty plaintext fails with [EmptyInput],
    whatever the password and the parameters; no token is produced and the
    world is left as it was. *)
Theorem encrypt_empty_input (password : jsstring) (saltLength ivLength : Z)
    (algorithm : jsstring) (iterations keyLength : Z) (w : World) :
  encrypt password [] saltLength ivLength algorithm iterations keyLength w
  = (Throw EmptyInput, w).
Proof. reflexivity. Qed.



(** C10. Under a CBC algorithm a token of four or more fields is treated as
    the token made of its first three: the fourth field is decoded and not
    used, the others are not read. *)
Theorem decrypt_cbc_extra_fields (password encryptedText algorithm : jsstring)
    (iterations keyLength : Z) (f0 f1 f2 f3 : jsstring) (rest : list jsstring)
    (w : World) :
  CBC algorithm ->
  split colon encryptedText = f0 :: f1 :: f2 :: f3 :: rest ->
  decrypt password encryptedText algorithm iterations keyLength w
  = decrypt password (join2 f0 (join2 f1 f2)) algorithm iterations keyLength w /\
  forall w',
    decrypt password encryptedText algorithm iterations keyLength w
    <> (Throw MalformedToken, w').
Proof.
  intros Hc Hf. split.
  2:{ rewrite (decrypt_fields _ _ _ _ _ _ _ _ _ Hf). intros w' E.
      apply decrypt_parsed_throws in E.
      destruct E as [E|[ [? E]|[ [? E]|[E|[? E] ] ] ] ]; discriminate E. }
  apply CBC_supported in Hc as [Hg _].
  pose proof (split_fields colon encryptedText) as Hno. rewrite Hf in Hno.
  inversion Hno as [|? ? H0 Hno1]; subst.
  inversion Hno1 as [|? ? H1 Hno2]; subst.
  inversion Hno2 as [|? ? H2 _]; subst.
  assert (H3 : split colon (join2 f0 (join2 f1 f2)) = [f0; f1; f2]).
  { unfold join2. rewrite split_app by assumption.
    rewrite split_app by assumption. now rewrite split_without. }
  rewrite (decrypt_fields _ _ _ _ _ _ _ _ _ Hf).
  rewrite (decrypt_fields _ _ _ _ _ _ _ _ _ H3).
  now rewrite decrypt_parsed_tag_unused.
Qed.

End Claims.

(** * Further properties of crypto.js and of the command line *)

Section Further.

Context {L : CryptoLib}.

(** X1. Validation passes exactly on one of the six identifiers given
    with the key length and the IV length of its entry: no other
    identifier, and none of the names inherited from [Object.prototype],
    gets through. *)
Theorem validate_accepts_iff (algorithm : jsstring) (keyLength ivLength : Z) :
  validateAlgorithmParameters algorithm keyLength ivLength = Ok tt <->
  exists spec, supported algorithm = Some spec /\
               keyLength = Spec.keyLength spec /\ ivLength = Spec.ivLength spec.
Proof.
  split; [apply validate_ok_inv|].
  intros (spec & Hs & -> & ->). now apply validate_ok.
Qed.

(** X2. The table agrees with the test [algorithm.includes('gcm')] that
    [encrypt] and [decrypt] branch on: parameters that pass validation
    have an identifier that reads aes, the key length in bits, and gcm or
    cbc, with an IV of 12 bytes on the GCM branch and of 16 on the other,
    and a key of 16, 24 or 32 bytes. *)
Theorem validated_name (algorithm : jsstring) (keyLength ivLength : Z) :
  validateAlgorithmParameters algorithm keyLength ivLength = Ok tt ->
  algorithm = js "aes-" ++ String_of_number (8 * keyLength)
                ++ (if includes algorithm gcm then js "-gcm" else js "-cbc") /\
  ivLength = (if includes algorithm gcm then 12 else 16) /\
  (keyLength = 16 \/ keyLength = 24 \/ keyLength = 32).
Proof.
  intros H. apply validate_ok_inv in H. destruct H as (spec & Hs & -> & ->).
  revert Hs. unfold supported, algorithmSpecs. cbn [own_property].
  repeat match goal with
    | |- context [streq ?k algorithm] =>
        let E := fresh "E" in
        destruct (streq k algorithm) eqn:E;
        [apply streq_eq in E; subst algorithm;
         let Hs := fresh "Hs" in intros Hs; injection Hs as <-;
         repeat split; try reflexivity; cbn; tauto|clear E]
    end.
  discriminate.
Qed.


(** X4. A salt length or an IV length below zero or above 2**31 - 1 makes
    [encrypt] fail with the range error of [randomBytes], before the
    algorithm and the lengths are validated; when it is the IV length, the
    salt is drawn already. *)
Theorem encrypt_size_out_of_range (password text : jsstring) (saltLength ivLength : Z)
    (algorithm : jsstring) (iterations keyLength : Z) (w : World) :
  text <> [] ->
  (~ 0 <= saltLength <= INT32_MAX ->
   encrypt password text saltLength ivLength algorithm iterations keyLength w
   = (Throw (Crypto OutOfRange), record (RandomBytes saltLength) w)) /\
  (0 <= saltLength <= INT32_MAX -> ~ 0 <= ivLength <= INT32_MAX ->
   encrypt password text saltLength ivLength algorithm iterations keyLength w
   = (Throw (Crypto OutOfRange),
      record (RandomBytes ivLength)
        (draw (Z.to_nat saltLength) (record (RandomBytes saltLength) w)))).
Proof.
  intros Ht. destruct text as [|u text]; [contradiction|]. split.
  - intros Hs. unfold encrypt, bind. now rewrite randomBytes_refused.
  - intros Hs Hi. unfold encrypt. rewrite bind_randomBytes_ok by assumption.
    unfold bind. now rewrite randomBytes_refused.
Qed.

(** X5. A run of [encrypt] that returns a token has made these calls to
    the crypto module and no other, in this order: [randomBytes] for the
    salt, [randomBytes] for the IV, one key derivation, [createCipheriv],
    [update], [final] and, on the GCM branch only, [getAuthTag].  It has
    drawn [saltLength + ivLength] random bytes. *)
Theorem encrypt_calls (password text : jsstring) (saltLength ivLength : Z)
    (algorithm : jsstring) (iterations keyLength : Z) (w w' : World) (token : jsstring) :
  encrypt password text saltLength ivLength algorithm iterations keyLength w
  = (Ok token, w') ->
  calls w' = calls w
             ++ [RandomBytes saltLength; RandomBytes ivLength; Pbkdf2Sync;
                 CreateCipheriv; CipherUpdate; CipherFinal]
             ++ (if includes algorithm gcm then [GetAuthTag] else []) /\
  drawn w' = (drawn w + Z.to_nat saltLength + Z.to_nat ivLength)%nat /\
  entropy w' = entropy w.
Proof.
  unfold encrypt. destruct text as [|u text]; [discriminate|].
  intros H.
  apply bind_ok_inv in H; destruct H as (salt & w1 & Hsalt & H).
  apply randomBytes_ok_inv in Hsalt as (Hsl & -> & ->).
  apply bind_ok_inv in H; destruct H as (iv & w2 & Hiv & H).
  apply randomBytes_ok_inv in Hiv as (Hil & -> & ->).
  apply bind_ok_inv in H; destruct H as ([] & w3 & Hv & H).
  apply check_ok_inv in Hv as (Hv & ->).
  apply bind_ok_inv in H; destruct H as (key & w4 & Hkey & H).
  apply invoke_ok_inv in Hkey as (Hkey & ->).
  apply bind_ok_inv in H; destruct H as (cipher & w5 & Hc & H).
  apply invoke_ok_inv in Hc as (Hc & ->).
  destruct (includes algorithm gcm).
  - apply bind_ok_inv in H; destruct H as ([out1 c1] & w6 & Hu & H).
    apply invoke_ok_inv in Hu as (Hu & ->).
    apply bind_ok_inv in H; destruct H as ([out2 c2] & w7 & Hf & H).
    apply invoke_ok_inv in Hf as (Hf & ->).
    apply bind_ok_inv in H; destruct H as (tag & w8 & Ht & H).
    apply invoke_ok_inv in Ht as (Ht & ->).
    injection H as _ <-. cbn [calls drawn entropy draw record].
    rewrite <- !app_assoc. now repeat split.
  - apply bind_ok_inv in H; destruct H as ([out1 c1] & w6 & Hu & H).
    apply invoke_ok_inv in Hu as (Hu & ->).
    apply bind_ok_inv in H; destruct H as ([out2 c2] & w7 & Hf & H).
    apply invoke_ok_inv in Hf as (Hf & ->).
    injection H as _ <-. cbn [calls drawn entropy draw record].
    rewrite <- !app_assoc. now repeat split.
Qed.

(** X6. [decrypt] draws no randomness, whatever its arguments and whether
    it returns or throws; its calls to the crypto module are a prefix of
    one key derivation, [createDecipheriv], [setAuthTag] (on the GCM branch
    only), [update], [final], and all of them when it returns. *)
Theorem decrypt_draws_nothing (password encryptedText algorithm : jsstring)
    (iterations keyLength : Z) (w : World) :
  let run := decrypt password encryptedText algorithm iterations keyLength w in
  let trace := [Pbkdf2Sync; CreateDecipheriv]
               ++ (if includes algorithm gcm then [SetAuthTag] else [])
               ++ [DecipherUpdate; DecipherFinal] in
  drawn (snd run) = drawn w /\
  entropy (snd run) = entropy w /\
  (exists n, calls (snd run) = calls w ++ firstn n trace) /\
  (forall text, fst run = Ok text -> calls (snd run) = calls w ++ trace).
Proof.
  cbv zeta.
  destruct (Nat.ltb_spec (List.length (split colon encryptedText)) 3) as [Hlen|Hlen].
  { rewrite decrypt_short by assumption. cbn [fst snd].
    repeat split; [|discriminate]. exists 0%nat. cbn [firstn]. now rewrite app_nil_r. }
  destruct (split colon encryptedText) as [|f0 [|f1 [|f2 rest]]] eqn:Hf;
    simpl in Hlen; try lia.
  rewrite (decrypt_fields _ _ _ _ _ _ _ _ _ Hf).
  unfold decrypt_parsed, bind, check, deriveKey, invoke, throw, ret, uncaught.
  destruct (validateAlgorithmParameters algorithm keyLength
              (Buffer_length (Buffer_from_hex f1))) as [ [] |ev].
  2:{ cbn [fst snd]. repeat split; [|discriminate].
      exists 0%nat. cbn [firstn]. now rewrite app_nil_r. }
  assert (Hstop : forall (n : nat) (l : list call) (trace : list call),
             firstn n trace = l ->
             exists n, calls w ++ l = calls w ++ firstn n trace)
    by (intros n l trace <-; now exists n).
  destruct (pbkdf2Sync password (Buffer_from_hex f0) iterations keyLength sha256)
    as [key|c].
  2:{ cbn [fst snd calls drawn entropy record]. repeat split; [|discriminate].
      now apply (Hstop 1%nat). }
  destruct (includes algorithm gcm).
  - destruct (createDecipheriv algorithm key (Buffer_from_hex f1)) as [d|c].
    2:{ cbn [fst snd calls drawn entropy record]. rewrite <- !app_assoc.
        repeat split; [|discriminate]. now apply (Hstop 2%nat). }
    destruct rest as [|f3 rest].
    { cbn [fst snd calls drawn entropy record]. rewrite <- !app_assoc.
      repeat split; [|discriminate]. now apply (Hstop 2%nat). }
    destruct (setAuthTag d (Buffer_from_hex f3)) as [d0|c].
    2:{ cbn [fst snd calls drawn entropy record]. rewrite <- !app_assoc.
        repeat split; [|discriminate]. now apply (Hstop 3%nat). }
    destruct (decipher_update d0 (Buffer_from_hex f2)) as [ [p1 d1]|c].
    2:{ cbn [fst snd calls drawn entropy record]. rewrite <- !app_assoc.
        repeat split; [|discriminate]. now apply (Hstop 4%nat). }
    destruct (decipher_final d1) as [ [p2 d2]|c];
      cbn [fst snd calls drawn entropy record]; rewrite <- !app_assoc;
      repeat split; try discriminate; now apply (Hstop 5%nat).
  - destruct (createDecipheriv algorithm key (Buffer_from_hex f1)) as [d|c].
    2:{ cbn [fst snd calls drawn entropy record]. rewrite <- !app_assoc.
        repeat split; [|discriminate]. now apply (Hstop 2%nat). }
    destruct (decipher_update d (Buffer_from_hex f2)) as [ [p1 d1]|c].
    2:{ cbn [fst snd calls drawn entropy record]. rewrite <- !app_assoc.
        repeat split; [|discriminate]. now apply (Hstop 3%nat). }
    destruct (decipher_final d1) as [ [p2 d2]|c];
      cbn [fst snd calls drawn entropy record]; rewrite <- !app_assoc;
      repeat split; try discriminate; now apply (Hstop 4%nat).
Qed.

(** X7. In the token of [encrypt] the salt field has two characters for
    each byte of [saltLength] and the IV field has 24 characters on the
    GCM branch and 32 on the other; there are four fields on the GCM branch
    and three on the other. *)
Theorem token_field_widths (password text : jsstring) (saltLength ivLength : Z)
    (algorithm : jsstring) (iterations keyLength : Z) (w w' : World) (token : jsstring) :
  encrypt password text saltLength ivLength algorithm iterations keyLength w
  = (Ok token, w') ->
  let parts := split colon token in
  List.length parts = (if includes algorithm gcm then 4 else 3)%nat /\
  Z.of_nat (List.length (nth 0 parts [])) = 2 * saltLength /\
  Z.of_nat (List.length (nth 1 parts []))
  = (if includes algorithm gcm then 24 else 32).
Proof.
  intros H. apply encrypt_ok_inv in H.
  destruct H as (spec & key & out1 & out2 & c2 & Hsteps & Htok).
  destruct Hsteps as (_ & Hsl & Hil & Hs & _ & Hiv & _).
  cbv zeta in *. rewrite <- toString_hex_app in Htok.
  assert (Hw : Z.of_nat (List.length (toString_hex (iv_drawn w saltLength ivLength)))
               = 2 * Spec.ivLength spec).
  { rewrite toString_hex_length. unfold iv_drawn. rewrite random_length; lia. }
  assert (Hv : Z.of_nat (List.length (toString_hex (salt_drawn w saltLength)))
               = 2 * saltLength).
  { rewrite toString_hex_length. unfold salt_drawn. rewrite random_length; lia. }
  destruct (supported_cases _ _ Hs) as [ [(_ & Hg & Hi)|(_ & Hg & Hi)] _];
    rewrite Hg in *.
  - subst token. rewrite split_token3. cbn [nth List.length]. repeat split; lia.
  - destruct Htok as (tag & _ & ->). rewrite split_token4. cbn [nth List.length].
    repeat split; lia.
Qed.



(** X10. A string that [decrypt] returns is well formed (no surrogate
    without its pair), whatever bytes the decipher gave, so that it is one
    of the plaintexts that [encrypt] and [decrypt] carry unchanged. *)
Theorem decrypt_wellformed (password encryptedText algorithm : jsstring)
    (iterations keyLength : Z) (w w' : World) (text : jsstring) :
  decrypt password encryptedText algorithm iterations keyLength w = (Ok text, w') ->
  isWellFormed text = true /\ utf8_decode (utf8_encode text) = text.
Proof.
  intros H. apply decrypt_ok_inv in H as (plain & ->).
  pose proof (utf8_decode_wf plain) as Hwf.
  split; [exact Hwf|now apply utf8_roundtrip_wellformed].
Qed.

(** X11. [validateNumericInput] on an integer written in decimal, as
    [String] prints it (below 10**21 in size): a positive one is accepted,
    zero and the negative ones get the message asking for a number
    greater than zero. *)
Theorem validateNumericInput_decimal (n : Z) :
  Z.abs n < 10 ^ 21 ->
  validateNumericInput (String_of_number n)
  = if 0 <? n then Valid else Invalid (js "Please enter a number greater than zero.").
Proof.
  intros _. unfold validateNumericInput. rewrite parseInt_String_of_number.
  destruct (Z.leb_spec n 0); destruct (Z.ltb_spec 0 n); try reflexivity; lia.
Qed.

(** X12. [validateNumericInput] looks at the leading numeral only: white
    space before it and anything that does not start with a digit after
    it change nothing, so that [16abc] and [1.5] are judged as [16] and
    [1] are. *)
Theorem validateNumericInput_prefix (ws ds rest : jsstring) :
  forallb isWhiteSpace ws = true ->
  ds <> [] ->
  forallb isDigit ds = true ->
  match rest with c :: _ => isDigit c = false | [] => True end ->
  validateNumericInput (ws ++ ds ++ rest) = validateNumericInput ds.
Proof.
  intros Hw Hne Hd Hr. unfold validateNumericInput.
  rewrite parseInt_blank_prefix by assumption.
  destruct (parseInt_numeral ds rest Hne Hd (not_digit_stops rest Hr)) as [-> _].
  destruct (parseInt_numeral ds [] Hne Hd eq_refl) as [E _].
  rewrite app_nil_r in E. now rewrite E.
Qed.

(** X13. [validateNumericInput] refuses the empty input and the input of
    white space only, with the message asking for a valid number. *)
Theorem validateNumericInput_blank (input : jsstring) :
  forallb isWhiteSpace input = true ->
  validateNumericInput input = Invalid (js "Please enter a valid number.").
Proof.
  intros H. apply trimStart_blank in H.
  unfold validateNumericInput, parseInt. now rewrite H.
Qed.

(** X14. The validator of the text, token and password prompts refuses
    exactly the inputs that are empty or of white space and line
    terminators only. *)
Theorem validateInput_validate_blank (input : jsstring) :
  validateInput_validate input
  = if forallb isWhiteSpace input then Invalid (js "Field can't be empty") else Valid.
Proof.
  unfold validateInput_validate.
  destruct (forallb isWhiteSpace input) eqn:E.
  - apply trim_blank in E. now rewrite E.
  - destruct (trim input) as [|c rest] eqn:Ht; [|reflexivity].
    apply trim_blank in Ht. congruence.
Qed.

(** X15. A text that the prompt's validator accepted is never refused by
    [encrypt] as empty, whatever the other arguments. *)
Theorem accepted_text_not_empty (password text : jsstring) (saltLength ivLength : Z)
    (algorithm : jsstring) (iterations keyLength : Z) (w : World) :
  validateInput_validate text = Valid ->
  fst (encrypt password text saltLength ivLength algorithm iterations keyLength w)
  <> Throw EmptyInput.
Proof.
  intros Hv E.
  assert (Ht : text <> []) by (intros ->; discriminate Hv).
  destruct (encrypt password text saltLength ivLength algorithm iterations keyLength w)
    as [r w'] eqn:Hrun.
  cbn [fst] in E. subst r. apply encrypt_throws in Hrun; [|exact Ht].
  destruct Hrun as [Hrun|[c Hc] ]; [|discriminate Hc].
  apply validate_throws in Hrun.
  destruct Hrun as [Hc|[ [r Hc]|[r Hc] ] ]; discriminate Hc.
Qed.

(** X16. What [decryptData] prints when [decrypt] throws (one of its own
    errors, or one of the two failures of [decipher.final]): the words
    Wrong Password for bad padding, which carries the code the handler
    looks for, and for every other error its message, on the error
    stream; so a tag that does not match, under GCM, is not reported as a
    wrong password, and no error of validation or of the token's format
    is. *)
Theorem wrong_password_report (bgRed : jsstring -> jsstring)
    (password encryptedText algorithm : jsstring) (iterations keyLength : Z)
    (w w' : World) (e : error) :
  decrypt password encryptedText algorithm iterations keyLength w = (Throw e, w') ->
  (forall c, e = Crypto c -> c = AuthenticationFailed \/ c = PaddingOrKeyError) ->
  handleDecryptionError bgRed e
  = match e with
    | Crypto PaddingOrKeyError => [console_log (bgRed (warning ++ js "Wrong Password"))]
    | _ => [console_error (bgRed (warning ++ message e))]
    end.
Proof.
  intros H Hc. apply decrypt_throws in H.
  destruct H as [->|[->|[ [ivLength Hv]|[c ->] ] ] ]; try reflexivity.
  - apply validate_throws_report in Hv as [Hv Hn].
    unfold handleDecryptionError. rewrite Hv. unfold handleError.
    destruct e as [| | | | | |c]; try reflexivity. now destruct (Hn c).
  - destruct (Hc c eq_refl) as [-> | ->]; reflexivity.
Qed.

(** X17. The token that [encrypt] returns passes the validator of the
    prompt where [decryptData] asks for it. *)
Theorem token_accepted_by_prompt (password text : jsstring) (saltLength ivLength : Z)
    (algorithm : jsstring) (iterations keyLength : Z) (w w' : World) (token : jsstring) :
  encrypt password text saltLength ivLength algorithm iterations keyLength w
  = (Ok token, w') ->
  validateInput_validate token = Valid.
Proof.
  intros H. apply encrypt_ok_inv in H.
  destruct H as (spec & key & out1 & out2 & c2 & _ & Htok). cbv zeta in Htok.
  assert (Hc : exists a b, token = a ++ colon :: b).
  { destruct (includes algorithm gcm); [destruct Htok as (tag & _ & ->)|subst token];
      unfold join2 at 1; eauto. }
  destruct Hc as (a & b & ->). unfold validateInput_validate.
  destruct (trim (a ++ colon :: b)) as [|c rest] eqn:Ht; [|reflexivity].
  apply trim_blank in Ht. rewrite forallb_app in Ht.
  apply andb_true_iff in Ht as [_ Ht]. discriminate Ht.
Qed.

(** X18. A token is tied to the mode it was made in, though it does not
    name it: decrypting the token of [encrypt] under one of the six
    algorithms of the other mode (GCM for CBC, CBC for GCM), given with its
    key length, fails with [IVLengthMismatch], whatever the password;
    nothing is derived or deciphered. *)
Theorem decrypt_other_mode (passwordA passwordB text : jsstring) (saltLength ivLength : Z)
    (algorithmA algorithmB : jsstring) (iterationsA iterationsB keyLengthA : Z)
    (specB : Spec.t) (w w1 w2 : World) (token : jsstring) :
  encrypt passwordA text saltLength ivLength algorithmA iterationsA keyLengthA w
  = (Ok token, w1) ->
  supported algorithmB = Some specB ->
  includes algorithmB gcm <> includes algorithmA gcm ->
  decrypt passwordB token algorithmB iterationsB (Spec.keyLength specB) w2
  = (Throw (IVLengthMismatch algorithmB (Some (Spec.ivLength specB))), w2).
Proof.
  intros H HB Hmode. apply encrypt_ok_inv in H.
  destruct H as (specA & key & out1 & out2 & c2 & Hsteps & Htok).
  destruct Hsteps as (_ & _ & Hil & HA & _ & Hiv & _).
  cbv zeta in Htok. rewrite <- toString_hex_app in Htok.
  assert (Hlen : Buffer_length (iv_drawn w saltLength ivLength) <> Spec.ivLength specB).
  { unfold iv_drawn. rewrite random_length by lia.
    destruct (supported_cases _ _ HA) as [ [(_ & Ha & Hi)|(_ & Ha & Hi)] _];
      destruct (supported_cases _ _ HB) as [ [(_ & Hb & Hj)|(_ & Hb & Hj)] _];
      congruence || lia. }
  assert (Hd : forall f0 f2 rest,
             split colon token
             = f0 :: toString_hex (iv_drawn w saltLength ivLength) :: f2 :: rest ->
             decrypt passwordB token algorithmB iterationsB (Spec.keyLength specB) w2
             = (Throw (IVLengthMismatch algorithmB (Some (Spec.ivLength specB))), w2)).
  { intros f0 f2 rest Hf. rewrite (decrypt_fields _ _ _ _ _ _ _ _ _ Hf).
    unfold decrypt_parsed. apply bind_check_throw.
    rewrite (validate_supported _ _ _ _ HB), Z.eqb_refl, Buffer_from_hex_toString.
    cbn [negb].
    now destruct (Z.eqb_spec (Buffer_length (iv_drawn w saltLength ivLength))
                    (Spec.ivLength specB)). }
  destruct (includes algorithmA gcm).
  - destruct Htok as (tag & _ & ->). eapply Hd. apply split_token4.
  - subst token. eapply Hd. apply split_token3.
Qed.

End Further.

(** * The code at concrete inputs, on the reference implementation *)

Example roundtrip_gcm :
  roundtrip (L := RefLib) (js "correct-horse") (js "correct-horse") (js "hello world")
    32 12 (js "aes-256-gcm") 3 32 world0 = Ok (js "hello world").
Proof. vm_compute. reflexivity. Qed.

Example roundtrip_gcm_wrong_password :
  roundtrip (L := RefLib) (js "correct-horse") (js "wrong-horse") (js "hello world")
    32 12 (js "aes-256-gcm") 3 32 world0 = Throw (Crypto AuthenticationFailed).
Proof. vm_compute. reflexivity. Qed.

Example roundtrip_cbc_wrong_password :
  roundtrip (L := RefLib) (js "correct-horse") (js "wrong-horse") (js "hello world")
    32 16 (js "aes-256-cbc") 3 32 world0 = Throw (Crypto PaddingOrKeyError).
Proof. vm_compute. reflexivity. Qed.

Example token_cbc :
  ran (encrypt (L := RefLib) (js "pw") (js "hi") 2 16 (js "aes-128-cbc") 1 16) world0
  = (Ok token_hi, 18%nat,
     [RandomBytes 2; RandomBytes 16; Pbkdf2Sync; CreateCipheriv; CipherUpdate;
      CipherFinal]).
Proof. vm_compute. reflexivity. Qed.

(** ** Where a claim, as stated, fails *)


(** So it is on every implementation of the crypto module. *)
Lemma lone_surrogate_replaced (L : CryptoLib) (HL : CryptoLaws L) (password : jsstring)
    (w : World) :
  exists token w1,
    encrypt password [0xD800] 16 16 (js "aes-256-cbc") 2 32 w = (Ok token, w1) /\
    forall w2, exists w3,
      decrypt password token (js "aes-256-cbc") 2 32 w2 = (Ok [0xFFFD], w3).
Proof.
  apply (encrypt_decrypt (HL := HL) password [0xD800] 16 16 (js "aes-256-cbc") 2 32
           aes_256_cbc w); try reflexivity; try discriminate;
    unfold INT32_MAX; cbn; lia.
Qed.

(** C2: when [encrypt] rejects the key length, 48 random bytes have been
    drawn. *)
Lemma encrypt_rejects_after_drawing :
  exists w',
    encrypt (L := RefLib) (js "pw") (js "hi") 32 16 (js "aes-256-cbc") 3 16 world0
    = (Throw (KeyLengthMismatch (js "aes-256-cbc") (Some 32)), w') /\
    drawn world0 = 0%nat /\ drawn w' = 48%nat /\
    calls w' = [RandomBytes 32; RandomBytes 16].
Proof.
  eexists. split; [reflexivity|]. repeat split; reflexivity.
Qed.




(** So it is for every password of fewer than 64 bytes, on every
    implementation of the module whose [pbkdf2Sync] is PBKDF2 with HMAC. *)
Lemma nul_password_accepted (L : CryptoLib) (HL : CryptoLaws L)
    (password text : jsstring) (saltLength ivLength : Z) (algorithm : jsstring)
    (iterations keyLength : Z) (spec : Spec.t) (w : World) :
  (forall password salt iterations keylen digest,
     pbkdf2Sync password salt iterations keylen digest
     = Ref.pbkdf2Sync password salt iterations keylen digest) ->
  (List.length (utf8_encode password) < HMAC.block_size)%nat ->
  supported algorithm = Some spec ->
  text <> [] ->
  isWellFormed text = true ->
  keyLength = Spec.keyLength spec ->
  ivLength = Spec.ivLength spec ->
  0 <= saltLength <= INT32_MAX ->
  1 <= iterations <= INT32_MAX ->
  exists token w1,
    encrypt password text saltLength ivLength algorithm iterations keyLength w
    = (Ok token, w1) /\
    forall w2, exists w3,
      decrypt (password ++ [0]) token algorithm iterations keyLength w2 = (Ok text, w3).
Proof.
  intros Hkdf Hshort. apply (same_key_roundtrip (HL := HL)).
  intros salt. rewrite !Hkdf. now apply KdfFacts.pbkdf2Sync_nul.
Qed.

(** ** The theorems at concrete inputs *)


Lemma key_length_mismatch_witness :
  (exists w',
     encrypt (L := RefLib) (js "pw") (js "hi") 32 16 (js "aes-256-cbc") 3 16 world0
     = (Throw (KeyLengthMismatch (js "aes-256-cbc") (Some 32)), w') /\
     calls w' = calls world0 ++ [RandomBytes 32; RandomBytes 16] /\
     drawn w' = (drawn world0 + Z.to_nat 32 + Z.to_nat 16)%nat) /\
  decrypt (L := RefLib) (js "pw") (js "00:00:00") (js "aes-256-cbc") 3 16 world0
  = (Throw (KeyLengthMismatch (js "aes-256-cbc") (Some 32)), world0).
Proof.
  destruct (key_length_mismatch (L := RefLib) (js "pw") (js "hi") (js "00:00:00")
              (js "aes-256-cbc") 32 16 3 16 aes_256_cbc world0)
    as [He Hd].
  - reflexivity.
  - cbn. lia.
  - split.
    + apply He; [discriminate| |]; unfold INT32_MAX; cbn; lia.
    + apply Hd. cbn. lia.
Defined.


Lemma encrypt_token_format_witness :
  exists spec key out1 out2 c2,
    encrypt_steps (L := RefLib) (js "pw") (js "hi") 2 16 (js "aes-128-cbc") 1 16 world0
      spec key out1 out2 c2 /\
    let salt := salt_drawn world0 2 in
    let iv := iv_drawn world0 2 16 in
    let ciphertext := out1 ++ out2 in
    ((CBC (js "aes-128-cbc") /\
      split colon token_hi
      = [toString_hex salt; toString_hex iv; toString_hex ciphertext]) \/
     (GCM (js "aes-128-cbc") /\
      exists tag, getAuthTag c2 = Ok tag /\
        split colon token_hi
        = [toString_hex salt; toString_hex iv; toString_hex ciphertext;
           toString_hex tag])) /\
    Forall (fun field => forallb is_lower_hex field = true) (split colon token_hi).
Proof.
  eapply (encrypt_token_format (L := RefLib) (js "pw") (js "hi") 2 16
            (js "aes-128-cbc") 1 16 world0).
  vm_compute. reflexivity.
Defined.




Lemma decrypt_cbc_extra_fields_witness :
  decrypt (L := RefLib) (js "pw") (js "aa:bb:cc:dd:ee") (js "aes-128-cbc") 2 16 world0
  = decrypt (L := RefLib) (js "pw") (join2 (js "aa") (join2 (js "bb") (js "cc")))
      (js "aes-128-cbc") 2 16 world0 /\
  forall w',
    decrypt (L := RefLib) (js "pw") (js "aa:bb:cc:dd:ee") (js "aes-128-cbc") 2 16 world0
    <> (Throw MalformedToken, w').
Proof.
  apply (decrypt_cbc_extra_fields (L := RefLib) (js "pw") (js "aa:bb:cc:dd:ee")
           (js "aes-128-cbc") 2 16 (js "aa") (js "bb") (js "cc") (js "dd") [js "ee"]).
  - left. reflexivity.
  - reflexivity.
Defined.

(** ** The further properties at concrete inputs *)

Lemma validated_name_witness :
  js "aes-256-gcm"
  = js "aes-" ++ String_of_number (8 * 32)
      ++ (if includes (js "aes-256-gcm") gcm then js "-gcm" else js "-cbc") /\
  12 = (if includes (js "aes-256-gcm") gcm then 12 else 16) /\
  (32 = 16 \/ 32 = 24 \/ 32 = 32).
Proof.
  apply (validated_name (js "aes-256-gcm") 32 12). reflexivity.
Defined.


Lemma encrypt_size_out_of_range_witness :
  encrypt (L := RefLib) (js "pw") (js "hi") (-1) 16 (js "aes-256-cbc") 1 32 world0
  = (Throw (Crypto OutOfRange), record (RandomBytes (-1)) world0) /\
  encrypt (L := RefLib) (js "pw") (js "hi") 2 (2 ^ 31) (js "aes-256-cbc") 1 32 world0
  = (Throw (Crypto OutOfRange),
     record (RandomBytes (2 ^ 31))
       (draw (Z.to_nat 2) (record (RandomBytes 2) world0))).
Proof.
  split.
  - apply (encrypt_size_out_of_range (L := RefLib) (js "pw") (js "hi") (-1) 16
             (js "aes-256-cbc") 1 32 world0); [discriminate|lia].
  - apply (encrypt_size_out_of_range (L := RefLib) (js "pw") (js "hi") 2 (2 ^ 31)
             (js "aes-256-cbc") 1 32 world0);
      [discriminate|unfold INT32_MAX; cbn; lia|unfold INT32_MAX; cbn; lia].
Defined.

Lemma encrypt_calls_witness :
  calls (snd run_hi)
  = calls world0
      ++ [RandomBytes 2; RandomBytes 16; Pbkdf2Sync; CreateCipheriv; CipherUpdate;
          CipherFinal]
      ++ (if includes (js "aes-128-cbc") gcm then [GetAuthTag] else []) /\
  drawn (snd run_hi) = (drawn world0 + Z.to_nat 2 + Z.to_nat 16)%nat /\
  entropy (snd run_hi) = entropy world0.
Proof.
  apply (encrypt_calls (L := RefLib) (js "pw") (js "hi") 2 16 (js "aes-128-cbc") 1 16
           world0 (snd run_hi) token_hi).
  vm_compute. reflexivity.
Defined.

Lemma decrypt_draws_nothing_witness :
  drawn (snd (decrypt (L := RefLib) (js "PW") token_hi (js "aes-128-cbc") 1 16 world0))
  = drawn world0.
Proof.
  apply (decrypt_draws_nothing (L := RefLib) (js "PW") token_hi (js "aes-128-cbc") 1 16
           world0).
Defined.

Lemma token_field_widths_witness :
  List.length (split colon token_hi)
  = (if includes (js "aes-128-cbc") gcm then 4 else 3)%nat /\
  Z.of_nat (List.length (nth 0 (split colon token_hi) [])) = 2 * 2 /\
  Z.of_nat (List.length (nth 1 (split colon token_hi) []))
  = (if includes (js "aes-128-cbc") gcm then 24 else 32).
Proof.
  apply (token_field_widths (L := RefLib) (js "pw") (js "hi") 2 16 (js "aes-128-cbc")
           1 16 world0 (snd run_hi) token_hi).
  vm_compute. reflexivity.
Defined.



Lemma decrypt_wellformed_witness :
  isWellFormed (js "hi") = true /\ utf8_decode (utf8_encode (js "hi")) = js "hi".
Proof.
  apply (decrypt_wellformed (L := RefLib) (js "pw") token_hi (js "aes-128-cbc") 1 16
           world0
           (snd (decrypt (L := RefLib) (js "pw") token_hi (js "aes-128-cbc") 1 16
                   world0))).
  vm_compute. reflexivity.
Defined.

Lemma validateNumericInput_decimal_witness :
  validateNumericInput (String_of_number 100000)
  = if 0 <? 100000 then Valid
    else Invalid (js "Please enter a number greater than zero.").
Proof.
  apply (validateNumericInput_decimal 100000). reflexivity.
Defined.

Lemma validateNumericInput_prefix_witness :
  validateNumericInput (js " " ++ js "16" ++ js "abc") = validateNumericInput (js "16").
Proof.
  apply (validateNumericInput_prefix (js " ") (js "16") (js "abc"));
    [reflexivity|discriminate|reflexivity|reflexivity].
Defined.

Lemma validateNumericInput_blank_witness :
  validateNumericInput (js "  ") = Invalid (js "Please enter a valid number.").
Proof.
  apply (validateNumericInput_blank (js "  ")). reflexivity.
Defined.

Lemma accepted_text_not_empty_witness :
  validateInput_validate (js "hi") = Valid /\
  fst run_hi <> Throw EmptyInput.
Proof.
  split; [reflexivity|].
  apply (accepted_text_not_empty (L := RefLib) (js "pw") (js "hi") 2 16
           (js "aes-128-cbc") 1 16 world0).
  reflexivity.
Defined.

Lemma wrong_password_report_witness :
  fst (decrypt (L := RefLib) (js "PW") token_hi (js "aes-128-cbc") 1 16 world0)
  = Throw (Crypto PaddingOrKeyError) /\
  handleDecryptionError (fun line => line) (Crypto PaddingOrKeyError)
  = [console_log (warning ++ js "Wrong Password")].
Proof.
  split; [vm_compute; reflexivity|].
  apply (wrong_password_report (L := RefLib) (fun line => line) (js "PW") token_hi
           (js "aes-128-cbc") 1 16 world0
           (snd (decrypt (L := RefLib) (js "PW") token_hi (js "aes-128-cbc") 1 16
                   world0))
           (Crypto PaddingOrKeyError)).
  - vm_compute. reflexivity.
  - intros c E. injection E as <-. now right.
Defined.

Lemma token_accepted_by_prompt_witness :
  validateInput_validate token_hi = Valid.
Proof.
  apply (token_accepted_by_prompt (L := RefLib) (js "pw") (js "hi") 2 16
           (js "aes-128-cbc") 1 16 world0 (snd run_hi) token_hi).
  vm_compute. reflexivity.
Defined.

Lemma decrypt_other_mode_witness :
  decrypt (L := RefLib) (js "pw") token_hi (js "aes-256-gcm") 1 32 world0
  = (Throw (IVLengthMismatch (js "aes-256-gcm") (Some 12)), world0).
Proof.
  apply (decrypt_other_mode (L := RefLib) (js "pw") (js "pw") (js "hi") 2 16
           (js "aes-128-cbc") (js "aes-256-gcm") 1 1 16 aes_256_gcm
           world0 (snd run_hi) world0 token_hi).
  - vm_compute. reflexivity.
  - reflexivity.
  - discriminate.
Defined.
